(** * Cibyl: model merge engine, source resolver, scope validator

    A shallow embedding of the core of cibyl (CI status collection):
    - [cibyl/models/ci/{build,job,system}.py]: the hierarchical model and
      its merge operations;
    - [cibyl/sources/source.py]: sources, the source resolver and the
      request wrapper;
    - [cibyl/cli/validator.py] and [cibyl/exceptions/*.py]: the scope
      validator and the errors it raises.

    Python objects are rendered as records, in-place mutation of [self]
    as a function returning the updated receiver, and raised exceptions as
    the [Raise] outcome of a small error monad.  The merge operations only
    read [other]; a child of [other] that [self] comes to store is the same
    object in both trees, and the trees are compared here as values. *)

From stdpp Require Import gmap strings list pretty.
From Stdlib Require Import ZArith Lia.

Local Open Scope Z_scope.
Local Open Scope string_scope.

(** ** Python values *)

(** The dynamically typed values that occur as keyword arguments of a
    source and as scalar attributes. *)
Inductive pyval :=
| VNone
| VBool (b : bool)
| VInt (z : Z)
| VStr (s : string).

#[global] Instance pyval_eq_dec : EqDecision pyval.
Proof. solve_decision. Defined.

(** Python truthiness, as used by [if x:] and [not x]. *)
Definition truthy (v : pyval) : bool :=
  match v with
  | VNone => false
  | VBool b => b
  | VInt z => negb (Z.eqb z 0)
  | VStr s => negb (String.eqb s EmptyString)
  end.

(** A scalar attribute of a model ([attr.value]) holding an optional
    string: [None] is Python's [None]. [py_not] is [not attr.value]. *)
Definition py_not (v : option string) : bool :=
  match v with
  | None => true
  | Some s => String.eqb s EmptyString
  end.

(** ** Python dictionaries *)

Section dict.
Context {V : Type}.

(** Modelled from the spec: [AttributeDictValue] (cibyl/models/attribute.py,
    not part of the sources) is the "mapping keyed by" identity of the data
    model, a wrapper that forwards [in], [d[k]], [d[k] = v] and [values()]
    to a Python [dict].  A [dict] keeps its keys unique and iterates in
    insertion order, so it is an association list in which [dict_set]
    overwrites in place or appends. *)
Definition dict := list (string * V).

(** [d.get(k)]; also decides [k in d] and guards [d[k]]. *)
Fixpoint dict_get (k : string) (d : dict) : option V :=
  match d with
  | [] => None
  | (k', v) :: d' => if decide (k = k') then Some v else dict_get k d'
  end.

(** [k in d] *)
Definition dict_contains (k : string) (d : dict) : bool :=
  match dict_get k d with Some _ => true | None => false end.

(** [d[k] = v] *)
Fixpoint dict_set (k : string) (v : V) (d : dict) : dict :=
  match d with
  | [] => [(k, v)]
  | (k', v') :: d' =>
      if decide (k = k') then (k, v) :: d' else (k', v') :: dict_set k v d'
  end.

(** [d.keys()] and [d.values()], in iteration order. *)
Definition dict_keys (d : dict) : list string := d.*1.
Definition dict_values (d : dict) : list V := d.*2.
End dict.

Arguments dict : clear implicits.

(** ** The CI model: Test, Build, Job, System *)

(** Modelled from the spec: cibyl/models/ci/test.py is not part of the
    sources.  A Test has a name (identity key), a result, an optional
    duration and an optional class name. *)
Record Test := mkTest {
  test_name : string;
  test_result : option string;
  test_duration : option Z;
  test_class_name : option string
}.

(** [not attr.value] for an optional number. *)
Definition py_not_int (v : option Z) : bool :=
  match v with
  | None => true
  | Some z => Z.eqb z 0
  end.

(** Modelled from the spec: [Test.merge] (cibyl/models/ci/test.py) is the
    leaf of the merge: it "merges scalar fields only", each by the scalar
    rule "if existing has no value (unset/empty), take incoming's value;
    otherwise keep existing's value unchanged". *)
Definition Test_merge (self other : Test) : Test :=
  mkTest (test_name self)
         (if py_not (test_result self)
          then test_result other else test_result self)
         (if py_not_int (test_duration self)
          then test_duration other else test_duration self)
         (if py_not (test_class_name self)
          then test_class_name other else test_class_name self).

(** cibyl/models/ci/build.py *)
Record Build := mkBuild {
  build_id : string;
  build_status : option string;
  build_duration : option Z;
  build_tests : dict Test
}.

(** [Build.add_test]:
<<
    test_name = test.name.value
    if test_name in self.tests:
        self.tests[test_name].merge(test)
    else:
        self.tests[test_name] = test
>> *)
Definition Build_add_test (self : Build) (test : Test) : Build :=
  let name := test_name test in
  match dict_get name (build_tests self) with
  | Some existing =>
      mkBuild (build_id self) (build_status self) (build_duration self)
              (dict_set name (Test_merge existing test) (build_tests self))
  | None =>
      mkBuild (build_id self) (build_status self) (build_duration self)
              (dict_set name test (build_tests self))
  end.

(** [Build.merge]:
<<
    if not self.status.value:
        self.status.value = other.status.value
    for test in other.tests.values():
        self.add_test(test)
>> *)
Definition Build_merge (self other : Build) : Build :=
  let self :=
    if py_not (build_status self)
    then mkBuild (build_id self) (build_status other) (build_duration self)
                 (build_tests self)
    else self in
  fold_left Build_add_test (dict_values (build_tests other)) self.

(** cibyl/models/ci/job.py *)
Record Job := mkJob {
  job_name : string;
  job_url : option string;
  job_builds : dict Build
}.

(** [Job.add_build]:
<<
    build_id = build.build_id.value
    if build_id in self.builds:
        self.builds[build_id].merge(build)
    else:
        self.builds[build_id] = build
>> *)
Definition Job_add_build (self : Job) (build : Build) : Job :=
  let id := build_id build in
  match dict_get id (job_builds self) with
  | Some existing =>
      mkJob (job_name self) (job_url self)
            (dict_set id (Build_merge existing build) (job_builds self))
  | None =>
      mkJob (job_name self) (job_url self)
            (dict_set id build (job_builds self))
  end.

(** [Job.merge]:
<<
    if not self.url.value:
        self.url.value = other.url.value
    for build in other.builds.values():
        self.add_build(build)
>> *)
Definition Job_merge (self other : Job) : Job :=
  let self :=
    if py_not (job_url self)
    then mkJob (job_name self) (job_url other) (job_builds self)
    else self in
  fold_left Job_add_build (dict_values (job_builds other)) self.

(** The right-hand operand of [==] and [in] is any Python object; the two
    kinds that reach [Job.__eq__] here are strings and jobs. *)
Inductive pyobj :=
| ObjStr (s : string)
| ObjJob (j : Job).

(** [Job.__eq__]:
<<
    if not isinstance(other, self.__class__):
        return False
    return self.name.value == other.name.value
>> *)
Definition Job___eq__ (self : Job) (other : pyobj) : bool :=
  match other with
  | ObjJob o => String.eqb (job_name self) (job_name o)
  | ObjStr _ => false
  end.

(** [x in seq] for a string [x] and a sequence of jobs: true when [x == v]
    for some element. [str.__eq__] does not know [Job] and answers
    [NotImplemented], so Python falls back on the reflected [Job.__eq__]. *)
Definition str_in_jobs (x : string) (vs : list Job) : bool :=
  existsb (fun v => Job___eq__ v (ObjStr x)) vs.

(** ** Outcomes of fallible code *)

(** A call either returns a value or raises an exception of type [E]. *)
Inductive result (E A : Type) :=
| Return (a : A)
| Raise (e : E).

Arguments Return {E A} a.
Arguments Raise {E A} e.

#[global] Instance result_ret {E} : MRet (result E) := fun A a => Return a.

#[global] Instance result_bind {E} : MBind (result E) := fun A B k m =>
  match m with
  | Return a => k a
  | Raise e => Raise e
  end.

#[global] Instance result_fmap {E} : FMap (result E) := fun A B f m =>
  match m with
  | Return a => Return (f a)
  | Raise e => Raise e
  end.

(** The exceptions of cibyl/exceptions/{model,source}.py, with the
    arguments their constructors receive, and the two built-in errors an
    attribute or key lookup raises. *)
Inductive exn :=
| NoSupportedSourcesFound (system function : string)
| NoValidSystem (valid_systems : list string)
| InvalidEnvironment (environment : string) (valid_environments : list string)
| InvalidSystem (system : string) (valid_systems : list string)
| AttributeError (attr : string)
| KeyError (key : string).

(** The line break of the messages. *)
Definition nl : string := String (Ascii.ascii_of_nat 10) EmptyString.

(** The lines listing the available names, one per line. *)
Definition name_lines (names : list string) : string :=
  fold_left (fun msg n => msg ++ n ++ nl) names EmptyString.

(** [self.message] as built by each [__init__]. *)
Definition message (e : exn) : string :=
  match e with
  | NoSupportedSourcesFound system function =>
      "Couldn't find any enabled source for the system" ++ nl ++
      system ++ " that implements the function " ++ function ++ "." ++ nl
  | NoValidSystem valid_systems =>
      "No valid system defined." ++
      match valid_systems with
      | [] => nl ++ "Please ensure the specified systems are present" ++
              " in the configuration."
      | _ => nl ++ "Please use one of the following available" ++
             " systems:" ++ nl ++ name_lines valid_systems
      end
  | InvalidEnvironment environment valid_environments =>
      "No such environment: " ++ environment ++
      match valid_environments with
      | [] => nl ++ "Please set at least one environment in the " ++
              "configuration file."
      | _ => nl ++ "Please use one of the following available" ++
             " environments:" ++ nl ++ name_lines valid_environments
      end
  | InvalidSystem system valid_systems =>
      "No such system: " ++ system ++
      match valid_systems with
      | [] => nl ++ "Please ensure the specified systems are present" ++
              " in the configuration."
      | _ => nl ++ "Please use one of the following available" ++
             " systems:" ++ nl ++ name_lines valid_systems
      end
  | AttributeError attr => "object has no attribute '" ++ attr ++ "'"
  | KeyError key => key
  end.

(** ** Sources (cibyl/sources/source.py) *)

(** The table a method is decorated with by [@speed_index({...})]. *)
Abbreviation speed_table := (gmap string Z).

(** What [getattr(source, name)] can yield: an entry of the underlying
    dictionary, or a method of the source's class, decorated with a speed
    table or not. *)
Inductive attribute :=
| AttrValue (v : pyval)
| AttrMethod (speed_index : option speed_table).

(** Modelled from the spec: [AttrDict] (cibyl/utils/attrdict.py) is a
    dictionary whose keys read as attributes.  A source is that dictionary
    ([name], [driver] and the remaining keyword arguments) together with
    the operations its class declares. *)
Record Source := mkSource {
  source_name : string;
  source_driver : string;
  source_kwargs : gmap string pyval;
  source_methods : gmap string (option speed_table)
}.

(** [kwargs.setdefault(key, default)] *)
Definition setdefault (key : string) (default : pyval)
    (kwargs : gmap string pyval) : gmap string pyval :=
  match kwargs !! key with
  | Some _ => kwargs
  | None => <[key := default]> kwargs
  end.

(** [Source.__init__]; [methods] are the operations of the class being
    instantiated.
<<
    kwargs.setdefault('enabled', True)
    kwargs.setdefault('priority', 0)
    super().__init__(name=name, driver=driver, **kwargs)
>> *)
Definition Source___init__ (methods : gmap string (option speed_table))
    (name driver : string) (kwargs : gmap string pyval) : Source :=
  let kwargs := setdefault "enabled" (VBool true) kwargs in
  let kwargs := setdefault "priority" (VInt 0) kwargs in
  mkSource name driver kwargs methods.

(** [getattr(source, attr)], [None] standing for [AttributeError]. *)
Definition getattr (source : Source) (attr : string) : option attribute :=
  if decide (attr = "name") then Some (AttrValue (VStr (source_name source)))
  else if decide (attr = "driver")
  then Some (AttrValue (VStr (source_driver source)))
  else match source_kwargs source !! attr with
       | Some v => Some (AttrValue v)
       | None => AttrMethod <$> source_methods source !! attr
       end.

Definition hasattr (source : Source) (attr : string) : bool :=
  match getattr source attr with Some _ => true | None => false end.

Definition attr_truthy (a : attribute) : bool :=
  match a with
  | AttrValue v => truthy v
  | AttrMethod _ => true
  end.

(** [is_source_valid]:
<<
    if not source.enabled:
        return False
    if not hasattr(source, desired_attr):
        return False
    return True
>> *)
Definition is_source_valid (source : Source) (desired_attr : string)
    : result exn bool :=
  match getattr source "enabled" with
  | None => Raise (AttributeError "enabled")
  | Some enabled =>
      if negb (attr_truthy enabled) then Return false
      else if negb (hasattr source desired_attr) then Return false
      else Return true
  end.

(** [speed_index.get(key, 0)] *)
Definition speed_get (speed_index : speed_table) (key : string) : Z :=
  default 0 (speed_index !! key).

(** [get_source_speed_score]; [args] are the keys of the user's argument
    dictionary, in iteration order.
<<
    source_method = getattr(source, func_name)
    speed = source_method.speed_index.get('base', 0)
    for arg in args:
        speed += source_method.speed_index.get(arg, 0)
    return speed
>> *)
Definition get_source_speed_score (source : Source) (func_name : string)
    (args : list string) : result exn Z :=
  match getattr source func_name with
  | None => Raise (AttributeError func_name)
  | Some (AttrValue _) | Some (AttrMethod None) =>
      Raise (AttributeError "speed_index")
  | Some (AttrMethod (Some speed_index)) =>
      Return (fold_left (fun speed arg => speed + speed_get speed_index arg)
                        args (speed_get speed_index "base"))
  end.

(** A bound method [getattr(source, func_name)]: [method_self] is its
    [__self__]. *)
Record bound_method := BoundMethod {
  method_self : Source;
  method_name : string
}.

(** One iteration of the loop of [get_source_method] over the pair
    [(speed_score, source_method)]. *)
Definition select_step (func_name : string) (args : list string)
    (st : Z * option bound_method) (source : Source)
    : result exn (Z * option bound_method) :=
  valid ← is_source_valid source func_name ;
  if (valid : bool) then
    source_speed_score ← get_source_speed_score source func_name args;
    if source_speed_score >? fst st
    then Return (source_speed_score, Some (BoundMethod source func_name))
    else Return st
  else Return st.

Fixpoint select_loop (func_name : string) (args : list string)
    (sources : list Source) (st : Z * option bound_method)
    : result exn (Z * option bound_method) :=
  match sources with
  | [] => Return st
  | source :: rest =>
      st' ← select_step func_name args st source;
      select_loop func_name args rest st'
  end.

(** [get_source_method]:
<<
    speed_score = 0
    source_method = None
    for source in sources:
        if is_source_valid(source, func_name):
            source_speed_score = get_source_speed_score(source,
                                                        func_name, args)
            if source_speed_score > speed_score:
                source_method = getattr(source, func_name)
                speed_score = source_speed_score
    if not source_method:
        raise NoSupportedSourcesFound(system_name, func_name)
    return source_method
>> *)
Definition get_source_method (system_name : string) (sources : list Source)
    (func_name : string) (args : list string) : result exn bound_method :=
  st ← select_loop func_name args sources (0, None);
  match snd st with
  | None => Raise (NoSupportedSourcesFound system_name func_name)
  | Some source_method => Return source_method
  end.

(** ** Systems (cibyl/models/ci/system.py) *)

Record System := mkSystem {
  system_name : string;
  system_type : string;
  system_jobs_scope : string;
  system_sources : list Source;
  system_jobs : dict Job
}.

(** [System.add_job]:
<<
    job_name = job.name.value
    if job_name in self.jobs.values():
        self.jobs[job_name].merge(job)
    else:
        self.jobs[job_name] = job
>>
    [self.jobs[job_name]] raises [KeyError] on a missing key. *)
Definition System_add_job (self : System) (job : Job) : result exn System :=
  let name := job_name job in
  if str_in_jobs name (dict_values (system_jobs self)) then
    match dict_get name (system_jobs self) with
    | Some existing =>
        Return (mkSystem (system_name self) (system_type self)
                  (system_jobs_scope self) (system_sources self)
                  (dict_set name (Job_merge existing job) (system_jobs self)))
    | None => Raise (KeyError name)
    end
  else
    Return (mkSystem (system_name self) (system_type self)
              (system_jobs_scope self) (system_sources self)
              (dict_set name job (system_jobs self))).


(** ** The scope validator (cibyl/cli/validator.py) *)

(** Modelled from the spec: the environment model
    (cibyl/models/ci/environment.py) is not part of the sources; an
    Environment has a name and owns its systems. *)
Record Environment := mkEnvironment {
  env_name : string;
  env_systems : list System
}.

(** Modelled from the spec: the argument class (cibyl/cli/argument.py) is
    not part of the sources.  A flag carries "a typed value and, for
    list-valued flags, an ordered sequence of strings": the [value] of a
    user argument is a single string, or a list of strings for a flag
    that takes several. *)
Inductive arg_value :=
| ArgStr (s : string)
| ArgList (l : list string).

(** The items [for x in value] goes through: the elements of a list, the
    one-character strings of a string. *)
Fixpoint chars (s : string) : list string :=
  match s with
  | EmptyString => []
  | String c s' => String c EmptyString :: chars s'
  end.

Definition py_iter (v : arg_value) : list string :=
  match v with
  | ArgStr s => chars s
  | ArgList l => l
  end.

(** [x in s] for two strings: [x] occurs in [s]. *)
Fixpoint is_substring (x s : string) : bool :=
  String.prefix x s ||
  match s with
  | EmptyString => false
  | String _ s' => is_substring x s'
  end.

(** [x in value] *)
Definition py_in (x : string) (v : arg_value) : bool :=
  match v with
  | ArgStr s => is_substring x s
  | ArgList l => bool_decide (x ∈ l)
  end.

(** [Validator.ci_args]: the arguments the user passed, by name.  An
    argument object is truthy, so [if self.ci_args.get(name):] asks
    whether the user passed it. *)
Abbreviation ci_args := (gmap string arg_value).

(** The loop of [_check_input_environments]. *)
Fixpoint check_names (all_envs : list string)
    (exception_to_raise : string -> list string -> exn)
    (names : list string) : result exn unit :=
  match names with
  | [] => Return tt
  | env_name :: rest =>
      if bool_decide (env_name ∈ all_envs)
      then check_names all_envs exception_to_raise rest
      else Raise (exception_to_raise env_name all_envs)
  end.

(** [Validator._check_input_environments]:
<<
    env_user_input = self.ci_args.get(argument)
    if env_user_input:
        for env_name in env_user_input.value:
            if env_name not in all_envs:
                raise exception_to_raise(env_name, all_envs)
>> *)
Definition _check_input_environments (args : ci_args)
    (all_envs : list string) (argument : string)
    (exception_to_raise : string -> list string -> exn) : result exn unit :=
  match args !! argument with
  | Some env_user_input =>
      check_names all_envs exception_to_raise (py_iter env_user_input)
  | None => Return tt
  end.

(** [Validator._consistent_environment]:
<<
    user_env = self.ci_args.get("env_name")
    if user_env:
        return env.name.value in user_env.value
    return True
>> *)
Definition _consistent_environment (args : ci_args) (env : Environment)
    : bool :=
  match args !! "env_name" with
  | Some user_env => py_in (env_name env) user_env
  | None => true
  end.

(** [Validator._consistent_system]:
<<
    name = system.name.value
    system_type = system.system_type.value
    system_sources = set(source.name for source in system.sources)
    user_system_type = self.ci_args.get("system_type")
    if user_system_type and system_type not in user_system_type.value:
        return False
    user_systems = self.ci_args.get("systems")
    if user_systems and name not in user_systems.value:
        return False
    user_sources = self.ci_args.get("sources")
    if user_sources:
        user_sources_names = set(user_sources.value)
        if not user_sources_names & system_sources:
            return False
    return True
>> *)
Definition _consistent_system (args : ci_args) (system : System) : bool :=
  let name := system_name system in
  let type := system_type system in
  let sources : gset string :=
    list_to_set (source_name <$> system_sources system) in
  if match args !! "system_type" with
     | Some user_system_type => negb (py_in type user_system_type)
     | None => false
     end
  then false
  else if match args !! "systems" with
          | Some user_systems => negb (py_in name user_systems)
          | None => false
          end
  then false
  else match args !! "sources" with
       | Some user_sources =>
           let user_sources_names : gset string :=
             list_to_set (py_iter user_sources) in
           if bool_decide (user_sources_names ∩ sources = ∅)
           then false else true
       | None => true
       end.

(** The state of the second loop of [validate_environments]: the
    environment objects as the loop leaves them, [user_envs] and
    [user_systems]. *)
Record filtered := mkFiltered {
  environments_after : list Environment;
  user_envs : list Environment;
  user_systems : list System
}.

(** The second loop of [validate_environments]; an environment that is
    kept has its systems replaced by the consistent ones
    ([env.systems.value = env_systems]). *)
Fixpoint filter_environments (args : ci_args)
    (environments : list Environment) : filtered :=
  match environments with
  | [] => mkFiltered [] [] []
  | env :: rest =>
      let r := filter_environments args rest in
      if negb (_consistent_environment args env)
      then mkFiltered (env :: environments_after r)
                      (user_envs r) (user_systems r)
      else
        let env_systems :=
          List.filter (_consistent_system args) (env_systems env) in
        match env_systems with
        | [] => mkFiltered (env :: environments_after r)
                           (user_envs r) (user_systems r)
        | _ =>
            let env' := mkEnvironment (env_name env) env_systems in
            mkFiltered (env' :: environments_after r)
                       (env' :: user_envs r)
                       (env_systems ++ user_systems r)
        end
  end.

(** [Validator.validate_environments]: the outcome of the call, and the
    environment objects as the call leaves them.
<<
    all_envs = []
    all_systems = []
    for env in environments:
        all_envs.append(env.name.value)
        for system in env.systems:
            all_systems.append(system.name.value)
    self._check_input_environments(all_envs, "env_name",
                                   InvalidEnvironment)
    self._check_input_environments(all_systems, "systems", InvalidSystem)
    user_systems = []
    user_envs = []
    for env in environments:
        env_systems = []
        if not self._consistent_environment(env):
            continue
        for system in env.systems:
            if not self._consistent_system(system):
                continue
            env_systems.append(system)
        if env_systems:
            env.systems.value = env_systems
            user_envs.append(env)
            user_systems.extend(env_systems)
    if not user_systems:
        raise NoValidSystem(all_systems)
    return user_envs, user_systems
>> *)
Definition validate_environments (args : ci_args)
    (environments : list Environment)
    : result exn (list Environment * list System) * list Environment :=
  let all_envs := env_name <$> environments in
  let all_systems :=
    concat ((fun env => system_name <$> env_systems env) <$> environments) in
  match _check_input_environments args all_envs "env_name"
                                  InvalidEnvironment with
  | Raise e => (Raise e, environments)
  | Return _ =>
      match _check_input_environments args all_systems "systems"
                                      InvalidSystem with
      | Raise e => (Raise e, environments)
      | Return _ =>
          let r := filter_environments args environments in
          match user_systems r with
          | [] => (Raise (NoValidSystem all_systems), environments_after r)
          | _ => (Return (user_envs r, user_systems r), environments_after r)
          end
      end
  end.

(** ** The request wrapper (cibyl/sources/source.py) *)

(** An exception object as [safe_request_generic] sees it: the classes it
    is an instance of (its class and all the bases, by qualified name),
    its message, the status code of [ex.response] when there is a
    response, and the exception it was raised [from]. *)
#[warnings="-register-all"]
Inductive pyexc :=
| PyExc (classes : list string) (msg : string)
        (status_code : option Z) (cause : option pyexc).

Definition exc_classes (ex : pyexc) : list string :=
  match ex with PyExc classes _ _ _ => classes end.

Definition exc_message (ex : pyexc) : string :=
  match ex with PyExc _ msg _ _ => msg end.

Definition exc_status_code (ex : pyexc) : option Z :=
  match ex with PyExc _ _ status_code _ => status_code end.

Definition exc_cause (ex : pyexc) : option pyexc :=
  match ex with PyExc _ _ _ cause => cause end.

(** [isinstance(ex, cls)], which is what an [except cls] clause tests. *)
Definition isinstance (ex : pyexc) (cls : string) : bool :=
  bool_decide (cls ∈ exc_classes ex).

(** [raise custom_error(msg) from ex]; [custom_error] is a class, given
    by its name and those of its bases. *)
Definition raise_from {A} (custom_error : list string) (msg : string)
    (ex : pyexc) : result pyexc A :=
  Raise (PyExc custom_error msg None (Some ex)).

(** Reading [ex.response.status_code] when [ex.response] is [None]. *)
Definition no_status_code : pyexc :=
  PyExc ["AttributeError"; "Exception"; "BaseException"]
        "'NoneType' object has no attribute 'status_code'" None None.

(** [safe_request_generic(request, custom_error)]:
<<
    def request_handler( *args, **kwargs):
        try:
            return request( *args, **kwargs)
        except requests.exceptions.SSLError as ex:
            raise custom_error(
                "Please set certificates in order to connect to the system"
            ) from ex
        except requests.exceptions.ConnectionError as ex:
            raise custom_error(
                "Could not connect to target host, please ensure connection "
                "details are correct."
            ) from ex
        except requests.exceptions.HTTPError as ex:
            raise custom_error(
                 f"Got response {ex.response.status_code} from target host."
            ) from ex
        except Exception as ex:
            raise custom_error('Failure on request to target host.') from ex
    return request_handler
>> *)
Definition safe_request_generic {A B} (request : A -> result pyexc B)
    (custom_error : list string) : A -> result pyexc B :=
  fun args =>
    match request args with
    | Return v => Return v
    | Raise ex =>
        if isinstance ex "requests.exceptions.SSLError" then
          raise_from custom_error
            "Please set certificates in order to connect to the system" ex
        else if isinstance ex "requests.exceptions.ConnectionError" then
          raise_from custom_error
            ("Could not connect to target host, please ensure connection " ++
             "details are correct.") ex
        else if isinstance ex "requests.exceptions.HTTPError" then
          match exc_status_code ex with
          | Some code =>
              raise_from custom_error
                ("Got response " ++ pretty code ++ " from target host.") ex
          | None => Raise no_status_code
          end
        else if isinstance ex "Exception" then
          raise_from custom_error "Failure on request to target host." ex
        else Raise ex
    end.

(** ** Well-formed collections *)

(** A collection is keyed by identity when every key is the identity key
    of the child stored under it; keys are unique in a [dict]. *)
Fixpoint keyed_by {V} (key : V -> string) (d : dict V) : bool :=
  match d with
  | [] => true
  | (k, v) :: d' =>
      bool_decide (k = key v) && negb (dict_contains k d') && keyed_by key d'
  end.

Definition Build_wf (b : Build) : bool :=
  keyed_by test_name (build_tests b).

Definition Job_wf (j : Job) : bool :=
  keyed_by build_id (job_builds j) &&
  forallb Build_wf (dict_values (job_builds j)).

(** Adding a child to a keyed collection, the pattern shared by
    [Build.add_test] and [Job.add_build]: merge into the child already
    stored under the key, or store the new child. *)
Section add_child.
Context {V : Type} (key : V -> string) (merge : V -> V -> V).

Definition add_child (d : dict V) (v : V) : dict V :=
  match dict_get (key v) d with
  | Some existing => dict_set (key v) (merge existing v) d
  | None => dict_set (key v) v d
  end.

Definition add_children (d : dict V) (vs : list V) : dict V :=
  fold_left add_child vs d.
End add_child.

(** ** Sample trees *)

(** A system that already holds job [j] with build [1], and a second
    report of [j] that knows build [2] only. *)
Definition known_job : Job :=
  mkJob "j" (Some "http://ci/job/j")
        [("1", mkBuild "1" (Some "SUCCESS") None [])].

Definition reported_job : Job :=
  mkJob "j" None [("2", mkBuild "2" (Some "FAILURE") None [])].

Definition known_system : System :=
  mkSystem "ci" "jenkins" "*" [] [("j", known_job)].

(** Scenario B: build [1] with its status, then build [1] with a test. *)
Definition build_with_status : Build :=
  mkBuild "1" (Some "SUCCESS") None [].

Definition bare_test : Test := mkTest "t1" None None None.

Definition failed_test : Test := mkTest "t1" (Some "FAILURE") None None.

Definition build_with_test : Build :=
  mkBuild "1" None None [("t1", bare_test)].

(** ** What the resolver is expected to select *)

(** The sum of the extra scores of the supplied flags. *)
Definition extra_scores (speed_index : speed_table) (args : list string) : Z :=
  foldr (fun arg total => speed_get speed_index arg + total) 0 args.

(** [m] is the method [func_name] of a source of the list that is enabled
    and declares [func_name], whose score [score] is positive, strictly
    greater than that of every such source attached before it, and not
    less than that of any such source attached after it. *)
Definition best_at (func_name : string) (args : list string)
    (sources : list Source) (m : bound_method) (score : Z) : Prop :=
  method_name m = func_name ∧
  exists earlier later,
    sources = (earlier ++ method_self m :: later)%list ∧
    is_source_valid (method_self m) func_name = Return true ∧
    get_source_speed_score (method_self m) func_name args = Return score ∧
    0 < score ∧
    (forall s, s ∈ earlier -> is_source_valid s func_name = Return true ->
       exists v, get_source_speed_score s func_name args = Return v ∧
                 v < score) ∧
    (forall s, s ∈ later -> is_source_valid s func_name = Return true ->
       exists v, get_source_speed_score s func_name args = Return v ∧
                 v <= score).

Definition first_best (func_name : string) (args : list string)
    (sources : list Source) (m : bound_method) : Prop :=
  exists score, best_at func_name args sources m score.

(** What the loop state says about the sources seen so far. *)
Definition summary (func_name : string) (args : list string)
    (seen : list Source) (st : Z * option bound_method) : Prop :=
  match st.2 with
  | Some m => best_at func_name args seen m st.1
  | None =>
      st.1 = 0 ∧
      forall s, s ∈ seen -> is_source_valid s func_name = Return true ->
        exists v, get_source_speed_score s func_name args = Return v ∧ v <= 0
  end.

(** The same source with another value in its [priority] entry, and a
    list of sources reprioritised source by source. *)
Definition with_priority (p : pyval) (s : Source) : Source :=
  mkSource (source_name s) (source_driver s)
           (<["priority" := p]> (source_kwargs s)) (source_methods s).

Definition reprioritise (p : Source -> pyval) (s : Source) : Source :=
  with_priority (p s) s.

Definition rebind (p : Source -> pyval) (m : bound_method) : bound_method :=
  BoundMethod (reprioritise p (method_self m)) (method_name m).

Definition rebind_state (p : Source -> pyval) (st : Z * option bound_method)
    : Z * option bound_method :=
  (st.1, rebind p <$> st.2).

(** ** Sample sources *)

(** A class whose only operation is [func_name], with the given table. *)
Definition one_method (func_name : string) (speed_index : speed_table)
    : gmap string (option speed_table) :=
  {[ func_name := Some speed_index ]}.

(** Scenario A: X and Y both declare [get_builds], with base score 1
    and 2. *)
Definition source_X : Source :=
  Source___init__ (one_method "get_builds" {[ "base" := 1 ]})
                  "X" "jenkins" ∅.

Definition source_Y : Source :=
  Source___init__ (one_method "get_builds" {[ "base" := 2 ]})
                  "Y" "elasticsearch" ∅.

(** An enabled source whose [get_jobs] has base score 0. *)
Definition idle_source : Source :=
  Source___init__ (one_method "get_jobs" {[ "base" := 0 ]})
                  "idle" "jenkins" ∅.

(** ** What the validator is expected to return *)

(** The configured names the requests are checked against. *)
Definition configured_environments (environments : list Environment)
    : list string :=
  env_name <$> environments.

Definition configured_systems (environments : list Environment)
    : list string :=
  concat ((fun env => system_name <$> env_systems env) <$> environments).

(** An environment survives with the systems that satisfy the user's
    constraints, unless its name is not requested or no system is left. *)
Definition surviving (args : ci_args) (env : Environment)
    : option Environment :=
  if _consistent_environment args env then
    match List.filter (_consistent_system args) (env_systems env) with
    | [] => None
    | systems => Some (mkEnvironment (env_name env) systems)
    end
  else None.

Definition surviving_environments (args : ci_args)
    (environments : list Environment) : list Environment :=
  omap (surviving args) environments.

Definition surviving_systems (args : ci_args)
    (environments : list Environment) : list System :=
  concat (env_systems <$> surviving_environments args environments).

(** The three constraints a system is checked against. *)
Definition type_requested (args : ci_args) (system : System) : Prop :=
  match args !! "system_type" with
  | Some requested => py_in (system_type system) requested = true
  | None => True
  end.

Definition name_requested (args : ci_args) (system : System) : Prop :=
  match args !! "systems" with
  | Some requested => py_in (system_name system) requested = true
  | None => True
  end.

Definition source_requested (args : ci_args) (system : System) : Prop :=
  match args !! "sources" with
  | Some requested =>
      exists source, source ∈ system_sources system ∧
                     source_name source ∈ py_iter requested
  | None => True
  end.

(** ** Sample configurations *)

(** Scenario C: only [staging] is configured. *)
Definition staging : Environment :=
  mkEnvironment "staging" [mkSystem "ci" "jenkins" "*" [source_X] []].

Definition request_prod : ci_args :=
  {[ "env_name" := ArgList ["prod"] ]}.

(** Scenario D: the only system has no source named [Y]. *)
Definition request_source_Y : ci_args :=
  {[ "sources" := ArgList ["Y"] ]}.

Definition request_source_X : ci_args :=
  {[ "sources" := ArgList ["X"] ]}.

(** ** Sample requests *)

(** Some [except] clause of the wrapper matches the exception. *)
Definition handled (ex : pyexc) : bool :=
  isinstance ex "requests.exceptions.SSLError" ||
  isinstance ex "requests.exceptions.ConnectionError" ||
  isinstance ex "requests.exceptions.HTTPError" ||
  isinstance ex "Exception".

(** [JenkinsError], the error kind of the Jenkins source. *)
Definition JenkinsError : list string :=
  ["cibyl.exceptions.jenkins.JenkinsError";
   "cibyl.exceptions.CibylException"; "Exception"; "BaseException"].

(** The user interrupts a request: [KeyboardInterrupt] derives from
    [BaseException] and not from [Exception]. *)
Definition keyboard_interrupt : pyexc :=
  PyExc ["KeyboardInterrupt"; "BaseException"] EmptyString None None.

Definition interrupted_request (_ : unit) : result pyexc Z :=
  Raise keyboard_interrupt.

(** [response.raise_for_status()] on a 404. *)
Definition not_found : pyexc :=
  PyExc ["requests.exceptions.HTTPError";
         "requests.exceptions.RequestException"; "OSError"; "Exception";
         "BaseException"]
        "404 Client Error" (Some 404) None.

(** An [HTTPError] raised without a response. *)
Definition bare_http_error : pyexc :=
  PyExc ["requests.exceptions.HTTPError";
         "requests.exceptions.RequestException"; "OSError"; "Exception";
         "BaseException"]
        "HTTP error" None None.

(** The tests of the wrapper: a request that raises [Exception] and one
    that returns. *)
Definition plain_exception : pyexc :=
  PyExc ["Exception"; "BaseException"] EmptyString None None.

(** ** More sample trees *)

(** Build [1] reported with its status, its duration and a failed test. *)
Definition build_with_result : Build :=
  mkBuild "1" (Some "FAILURE") (Some 60000) [("t1", failed_test)].

(** A third report of job [j]: build [2] again, now with a test, and
    build [3]. *)
Definition rerun_job : Job :=
  mkJob "j" (Some "http://other/job/j")
        [("2", mkBuild "2" None None [("t1", bare_test)]);
         ("3", mkBuild "3" (Some "UNSTABLE") None [])].

(** ** Populating a system (cibyl/models/ci/system.py) *)





(** ** Sources the resolver passes over *)

(** [is_source_valid] answers [False] for the source. *)
Definition passed_over (func_name : string) (source : Source) : bool :=
  match is_source_valid source func_name with
  | Return false => true
  | _ => false
  end.

(** The sources of a list the resolver does not pass over. *)
Definition candidates (func_name : string) (sources : list Source)
    : list Source :=
  List.filter (fun source => negb (passed_over func_name source)) sources.


Definition disabled_source : Source :=
  Source___init__ (one_method "get_builds" {[ "base" := 9 ]})
                  "off" "jenkins" {[ "enabled" := VBool false ]}.

(** ** Environments with systems *)

Definition has_systems (env : Environment) : bool :=
  match env_systems env with
  | [] => false
  | _ => true
  end.

(** An environment without systems, next to [staging]. *)
Definition empty_environment : Environment := mkEnvironment "lab" [].

(** ** The exception classes of requests the wrapper names *)

Definition requests_errors : list string :=
  ["requests.exceptions.SSLError"; "requests.exceptions.ConnectionError";
   "requests.exceptions.HTTPError"].

(** A request that fails with a 404, and the same request wrapped once. *)
Definition failing_request (_ : unit) : result pyexc Z := Raise not_found.

(** ** Reading the command line (cibyl/cli/main.py) *)

(** Indexing a list past its end. *)
Inductive cli_error :=
| IndexError.

(** The loop of [get_config_file_path] over [enumerate(arguments[1:])],
    from index [i] on. *)
Fixpoint config_path_loop (arguments : list string) (i : nat)
    (items : list string) (config_file_path : option string)
    : result cli_error (option string) :=
  match items with
  | [] => Return config_file_path
  | item :: rest =>
      if decide (item = "--config") then
        match arguments !! (i + 2)%nat with
        | Some value => config_path_loop arguments (S i) rest (Some value)
        | None => Raise IndexError
        end
      else config_path_loop arguments (S i) rest config_file_path
  end.

(** [get_config_file_path]:
<<
    config_file_path = None
    for i, item in enumerate(arguments[1:]):
        if item == "--config":
            config_file_path = arguments[i + 2]
    return config_file_path
>> *)
Definition get_config_file_path (arguments : list string)
    : result cli_error (option string) :=
  config_path_loop arguments 0 (tail arguments) None.

(** The dictionary [get_config_log] returns. *)
Record log_config := mkLogConfig {
  log_file : string;
  log_mode : string;
  debug : bool
}.

(** The loop of [get_config_log]. *)
Fixpoint config_log_loop (arguments : list string) (i : nat)
    (items : list string) (config : log_config)
    : result cli_error log_config :=
  match items with
  | [] => Return config
  | item :: rest =>
      if decide (item = "--log-file") then
        match arguments !! (i + 2)%nat with
        | Some value =>
            config_log_loop arguments (S i) rest
              (mkLogConfig value (log_mode config) (debug config))
        | None => Raise IndexError
        end
      else if decide (item = "--log-mode") then
        match arguments !! (i + 2)%nat with
        | Some value =>
            config_log_loop arguments (S i) rest
              (mkLogConfig (log_file config) value (debug config))
        | None => Raise IndexError
        end
      else if decide (item = "--debug") then
        config_log_loop arguments (S i) rest
          (mkLogConfig (log_file config) (log_mode config) true)
      else config_log_loop arguments (S i) rest config
  end.

(** [get_config_log]:
<<
    log_config = {"log_file": "cibyl_output.log", "log_mode": "both",
                  "debug": False}
    for i, item in enumerate(arguments[1:]):
        if item == "--log-file":
            log_config["log_file"] = arguments[i + 2]
        elif item == "--log-mode":
            log_config["log_mode"] = arguments[i+2]
        elif item == "--debug":
            log_config["debug"] = True
    return log_config
>> *)
Definition get_config_log (arguments : list string)
    : result cli_error log_config :=
  config_log_loop arguments 0 (tail arguments)
                  (mkLogConfig "cibyl_output.log" "both" false).

(** The same two loops, reading the value of a flag as the item that
    follows it. *)
Fixpoint config_path_scan (items : list string)
    (config_file_path : option string) : result cli_error (option string) :=
  match items with
  | [] => Return config_file_path
  | item :: rest =>
      if decide (item = "--config") then
        match rest with
        | value :: _ => config_path_scan rest (Some value)
        | [] => Raise IndexError
        end
      else config_path_scan rest config_file_path
  end.

Fixpoint config_log_scan (items : list string) (config : log_config)
    : result cli_error log_config :=
  match items with
  | [] => Return config
  | item :: rest =>
      if decide (item = "--log-file") then
        match rest with
        | value :: _ =>
            config_log_scan rest
              (mkLogConfig value (log_mode config) (debug config))
        | [] => Raise IndexError
        end
      else if decide (item = "--log-mode") then
        match rest with
        | value :: _ =>
            config_log_scan rest
              (mkLogConfig (log_file config) value (debug config))
        | [] => Raise IndexError
        end
      else if decide (item = "--debug") then
        config_log_scan rest
          (mkLogConfig (log_file config) (log_mode config) true)
      else config_log_scan rest config
  end.

(** ** Query templates (cibyl/sources/elasticsearch/api.py) *)








(** ** The jobs a source returns (cibyl/sources/jenkins.py) *)

(** A job as the Jenkins API describes it: its name and, when present,
    its URL. *)
Record job_record := mkJobRecord {
  record_name : string;
  record_url : option string
}.

(** [Job(name=name, url=url)]: a job without builds. *)
Definition Job___init__ (name : string) (url : option string) : Job :=
  mkJob name url [].

(** The loop of [Jenkins.get_jobs] that builds the collection returned,
    from the jobs that passed the filters:
<<
    job_objects = {}
    for job in jobs_filtered:
        name = job.get('name')
        job_objects[name] = Job(name=name, url=job.get('url'))
>> *)
Definition job_objects (jobs_filtered : list job_record) : dict Job :=
  fold_left (fun job_objects job =>
               dict_set (record_name job)
                        (Job___init__ (record_name job) (record_url job))
                        job_objects)
            jobs_filtered [].

(** ** Loading plugins (cibyl/cli/main.py) *)

(** [arguments[i + 2]] past the end of the list. *)
Definition index_error : pyexc :=
  PyExc ["IndexError"; "LookupError"; "Exception"; "BaseException"]
        "list index out of range" None None.

(** [raise ImportError(f"Failed to import: {plugin}") from error] *)
Definition failed_to_import (plugin : string) (error : pyexc) : pyexc :=
  PyExc ["ImportError"; "Exception"; "BaseException"]
        ("Failed to import: " ++ plugin) None (Some error).

(** The first loop of [load_plugins], which collects the plugin names. *)
Fixpoint plugin_names_loop (arguments : list string) (i : nat)
    (items : list string) (plugin_name : list string)
    : result pyexc (list string) :=
  match items with
  | [] => Return plugin_name
  | value :: rest =>
      if decide (value = "--plugin") then
        match arguments !! (i + 2)%nat with
        | Some plugin =>
            plugin_names_loop arguments (S i) rest (plugin_name ++ [plugin])
        | None => Raise index_error
        end
      else if decide (value = "-p") then
        match arguments !! (i + 2)%nat with
        | Some plugin =>
            plugin_names_loop arguments (S i) rest (plugin_name ++ [plugin])
        | None => Raise index_error
        end
      else plugin_names_loop arguments (S i) rest plugin_name
  end.

(** The same loop, reading the name as the item that follows the flag. *)
Fixpoint plugin_names_scan (items : list string) (plugin_name : list string)
    : result pyexc (list string) :=
  match items with
  | [] => Return plugin_name
  | value :: rest =>
      if decide (value = "--plugin") then
        match rest with
        | plugin :: _ => plugin_names_scan rest (plugin_name ++ [plugin])
        | [] => Raise index_error
        end
      else if decide (value = "-p") then
        match rest with
        | plugin :: _ => plugin_names_scan rest (plugin_name ++ [plugin])
        | [] => Raise index_error
        end
      else plugin_names_scan rest plugin_name
  end.

(** An argument that announces a plugin. *)
Definition plugin_flag (value : string) : bool :=
  bool_decide (value = "--plugin") || bool_decide (value = "-p").

(** The arguments that directly follow a plugin flag. *)
Definition flagged (items : list string) : list string :=
  omap (fun pair : string * string =>
          if plugin_flag pair.1 then Some pair.2 else None)
       (zip items (tail items)).

Section load_plugins.
(** [__import__], which gives a module or raises. *)
Context {Module : Type} (import_ : string -> result pyexc Module).

(** The second loop of [load_plugins]. *)
Fixpoint import_plugins (plugins : list string) (loaded_plugins : list Module)
    : result pyexc (list Module) :=
  match plugins with
  | [] => Return loaded_plugins
  | plugin :: rest =>
      match import_ ("cibyl.plugins." ++ plugin) with
      | Return module => import_plugins rest (loaded_plugins ++ [module])
      | Raise error =>
          if isinstance error "ImportError" ||
             isinstance error "ModuleNotFoundError"
          then Raise (failed_to_import plugin error)
          else Raise error
      end
  end.

(** [load_plugins]:
<<
    plugin_name = []
    for arg, value in enumerate(arguments[1:]):
        if value == "--plugin":
            plugin_name.append(arguments[arg + 2])
        elif value == "-p":
            plugin_name.append(arguments[arg + 2])
    loaded_plugins = []
    for plugin in plugin_name:
        try:
            loaded_plugins.append(
                __import__(f"cibyl.plugins.{plugin}"))
        except (ImportError, ModuleNotFoundError) as error:
            raise ImportError(f"Failed to import: {plugin}") from error
    return loaded_plugins
>> *)
Definition load_plugins (arguments : list string)
    : result pyexc (list Module) :=
  plugin_name ← plugin_names_loop arguments 0 (tail arguments) [];
  import_plugins plugin_name [].
End load_plugins.

(** A module that is not installed, and an importer that knows the
    openstack plugin only. *)
Definition module_not_found : pyexc :=
  PyExc ["ModuleNotFoundError"; "ImportError"; "Exception"; "BaseException"]
        "No module named 'cibyl.plugins.zuul'" None None.

Definition import_openstack (name : string) : result pyexc string :=
  if decide (name = "cibyl.plugins.openstack") then Return name
  else Raise module_not_found.

(** ** The two source classes (cibyl/sources/jenkins.py,
       cibyl/sources/elasticsearch/api.py) *)

(** The methods of class [Jenkins], with the speed table each one is
    decorated with. *)
Definition Jenkins_methods : gmap string (option speed_table) :=
  {[ "send_request" := None;
     "get_jobs" := Some ({[ "base" := 2 ]} : speed_table);
     "get_builds" :=
       Some ({[ "base" := 1; "last_build" := 1 ]} : speed_table);
     "get_last_build" := None;
     "get_deployment" := Some ({[ "base" := 2 ]} : speed_table);
     "add_job_info_from_artifacts" := None;
     "add_job_info_from_name" := None ]}.

(** The methods of class [ElasticSearchOSP]. *)
Definition ElasticSearchOSP_methods : gmap string (option speed_table) :=
  {[ "get_jobs" := Some ({[ "base" := 1 ]} : speed_table);
     "_ElasticSearchOSP__query_get_hits" := None;
     "get_builds" := Some ({[ "base" := 2 ]} : speed_table);
     "get_last_build" := None;
     "get_deployment" := Some ({[ "base" := 2 ]} : speed_table) ]}.

(** The operations the two classes answer. *)
Definition operations : list string :=
  ["get_jobs"; "get_builds"; "get_deployment"].

(** [source] is an enabled instance of the class with these methods, none
    of the operations being hidden by an entry of the instance. *)
Definition enabled_instance (methods : gmap string (option speed_table))
    (source : Source) : bool :=
  bool_decide (source_methods source = methods) &&
  match source_kwargs source !! "enabled" with
  | Some enabled => truthy enabled
  | None => false
  end &&
  forallb (fun op => bool_decide (source_kwargs source !! op = None))
          operations.

(** [Jenkins.__init__]:
<<
    super().__init__(name=name, url=url, driver=driver,
                     enabled=enabled, priority=priority)
    self.username = username
    self.token = token
    self.cert = cert
>> *)
Definition Jenkins___init__ (url : string) (username token cert : pyval)
    (name driver : string) (enabled priority : pyval) : Source :=
  let self :=
    Source___init__ Jenkins_methods name driver
      {[ "url" := VStr url; "enabled" := enabled; "priority" := priority ]} in
  let set_attribute key value self :=
    mkSource (source_name self) (source_driver self)
             (<[key := value]> (source_kwargs self)) (source_methods self) in
  set_attribute "cert" cert
    (set_attribute "token" token (set_attribute "username" username self)).

(** A Jenkins source built with the defaults of the constructor. *)
Definition jenkins_source : Source :=
  Jenkins___init__ "https://ci/jenkins" VNone VNone VNone
                   "jenkins" "jenkins" (VBool true) (VInt 0).

(** An Elasticsearch source with the defaults of
    [ElasticSearchOSP.__init__], which calls
    [super().__init__(name=name, driver=driver, priority=priority,
    enabled=enabled)]; the client object it then stores as [es_client] is
    left out. *)
Definition elasticsearch_source : Source :=
  Source___init__ ElasticSearchOSP_methods "elasticsearch" "elasticsearch"
                  {[ "priority" := VInt 0; "enabled" := VBool true ]}.


(** * Properties *)

(** ** Dictionaries *)

Section dict_facts.
Context {V : Type}.
Implicit Types (d : dict V) (k : string) (v : V).

Lemma dict_get_set_eq k v d : dict_get k (dict_set k v d) = Some v.
Proof.
  induction d as [|[k' v'] d IH]; simpl.
  - by rewrite decide_True.
  - destruct (decide (k = k')) as [->|Hne]; simpl.
    + by rewrite decide_True.
    + by rewrite decide_False.
Qed.

Lemma dict_get_set_ne k k' v d :
  k ≠ k' -> dict_get k' (dict_set k v d) = dict_get k' d.
Proof.
  intros Hne. induction d as [|[k0 v0] d IH]; simpl.
  - by rewrite decide_False.
  - destruct (decide (k = k0)) as [->|Hne0]; simpl.
    + by rewrite !decide_False.
    + by rewrite IH.
Qed.

Lemma dict_get_is_Some k d : is_Some (dict_get k d) <-> k ∈ dict_keys d.
Proof.
  unfold dict_keys. induction d as [|[k' v'] d IH]; simpl.
  - split; [intros [? ?]; discriminate | by intros ?%elem_of_nil].
  - rewrite elem_of_cons. destruct (decide (k = k')) as [->|Hne].
    + split; eauto.
    + split; [intros H; right; by apply IH | intros [?|H]; [done | by apply IH]].
Qed.

Lemma dict_get_None k d : dict_get k d = None <-> k ∉ dict_keys d.
Proof.
  rewrite <- dict_get_is_Some, eq_None_not_Some. reflexivity.
Qed.

Lemma dict_keys_set_present k v d :
  is_Some (dict_get k d) -> dict_keys (dict_set k v d) = dict_keys d.
Proof.
  unfold dict_keys. induction d as [|[k' v'] d IH]; simpl.
  - intros [? ?]; discriminate.
  - destruct (decide (k = k')) as [->|Hne]; simpl; intros H.
    + reflexivity.
    + f_equal. by apply IH.
Qed.

Lemma dict_keys_set_absent k v d :
  dict_get k d = None -> dict_keys (dict_set k v d) = (dict_keys d ++ [k])%list.
Proof.
  unfold dict_keys. induction d as [|[k' v'] d IH]; simpl.
  - reflexivity.
  - destruct (decide (k = k')) as [->|Hne]; simpl; intros H.
    + discriminate.
    + f_equal. by apply IH.
Qed.

Lemma dict_keys_set_incl k k' v d :
  k' ∈ dict_keys d -> k' ∈ dict_keys (dict_set k v d).
Proof.
  intros Hin. destruct (dict_get k d) as [e|] eqn:Hget.
  - rewrite dict_keys_set_present; eauto.
  - rewrite dict_keys_set_absent by done. apply elem_of_app. by left.
Qed.

Lemma dict_keys_set_key k v d : k ∈ dict_keys (dict_set k v d).
Proof. apply dict_get_is_Some. rewrite dict_get_set_eq. eauto. Qed.

Lemma dict_set_get_id k v d : dict_get k d = Some v -> dict_set k v d = d.
Proof.
  induction d as [|[k' v'] d IH]; simpl.
  - discriminate.
  - destruct (decide (k = k')) as [->|Hne]; intros H.
    + by simplify_eq.
    + by rewrite IH.
Qed.

Lemma dict_set_set k v v' d :
  dict_set k v (dict_set k v' d) = dict_set k v d.
Proof.
  induction d as [|[k0 v0] d IH]; simpl.
  - by rewrite decide_True.
  - destruct (decide (k = k0)) as [->|Hne]; simpl.
    + by rewrite decide_True.
    + by rewrite decide_False, IH.
Qed.

Lemma dict_set_comm k1 k2 v1 v2 d :
  k1 ≠ k2 -> is_Some (dict_get k1 d) ->
  dict_set k1 v1 (dict_set k2 v2 d) = dict_set k2 v2 (dict_set k1 v1 d).
Proof.
  intros Hne. induction d as [|[k0 v0] d IH]; simpl.
  - intros [? ?]; discriminate.
  - intros H. repeat (case_decide; simplify_eq; simpl); try done.
    f_equal. by apply IH.
Qed.

Lemma keyed_by_get (key : V -> string) k v d :
  keyed_by key d = true -> (k, v) ∈ d -> dict_get k d = Some v ∧ k = key v.
Proof.
  induction d as [|[k' v'] d IH]; simpl.
  - by intros _ ?%elem_of_nil.
  - rewrite !andb_true_iff, bool_decide_eq_true, negb_true_iff.
    intros [[Hk Hfresh] Hwf] Hin. apply elem_of_cons in Hin as [Heq|Hin].
    + simplify_eq. by rewrite decide_True.
    + destruct (IH Hwf Hin) as [Hget ->]. split; [|done].
      destruct (decide (key v = k')) as [Heq|]; [|done].
      unfold dict_contains in Hfresh. rewrite <- Heq, Hget in Hfresh.
      discriminate.
Qed.

Lemma keyed_by_keys (key : V -> string) d :
  keyed_by key d = true -> key <$> dict_values d = dict_keys d.
Proof.
  unfold dict_values, dict_keys.
  induction d as [|[k' v'] d IH]; simpl; [done|].
  rewrite !andb_true_iff, bool_decide_eq_true.
  intros [[-> _] Hwf]. f_equal. by apply IH.
Qed.

Lemma keyed_by_NoDup (key : V -> string) d :
  keyed_by key d = true -> NoDup (dict_keys d).
Proof.
  unfold dict_keys. induction d as [|[k' v'] d IH]; simpl.
  - constructor.
  - rewrite !andb_true_iff, negb_true_iff.
    intros [[_ Hfresh] Hwf]. constructor; [|by apply IH].
    apply dict_get_None. unfold dict_contains in Hfresh.
    by destruct (dict_get k' d).
Qed.
End dict_facts.

(** ** Adding children to a keyed collection *)

Section add_child_facts.
Context {V : Type} (key : V -> string) (merge : V -> V -> V).
Implicit Types (d : dict V) (k : string) (v : V).

Local Abbreviation add := (add_child key merge).
Local Abbreviation add_all := (add_children key merge).

Lemma add_child_keys d v k :
  k ∈ dict_keys (add d v) <-> k ∈ dict_keys d ∨ k = key v.
Proof.
  unfold add_child. destruct (dict_get (key v) d) as [e|] eqn:Hget.
  - rewrite dict_keys_set_present by eauto. split; [by left|].
    intros [?| ->]; [done|]. apply dict_get_is_Some. eauto.
  - rewrite dict_keys_set_absent, elem_of_app, list_elem_of_singleton by done.
    reflexivity.
Qed.

Lemma add_children_keys d vs k :
  k ∈ dict_keys (add_all d vs) <-> k ∈ dict_keys d ∨ k ∈ key <$> vs.
Proof.
  unfold add_children. revert d.
  induction vs as [|v vs IH]; intros d; simpl.
  - split; [by left | by intros [?|?%elem_of_nil]].
  - rewrite IH, add_child_keys, elem_of_cons. tauto.
Qed.

Lemma add_children_cons d v vs : add_all d (v :: vs) = add_all (add d v) vs.
Proof. reflexivity. Qed.

Lemma add_child_get_ne d v k :
  k ≠ key v -> dict_get k (add d v) = dict_get k d.
Proof.
  intros Hne. unfold add_child.
  destruct (dict_get (key v) d); by apply dict_get_set_ne.
Qed.

Lemma add_child_twice d v :
  merge v v = v -> (forall e, merge (merge e v) v = merge e v) ->
  add (add d v) v = add d v.
Proof.
  intros Hself Hagain. unfold add_child at 1.
  assert (Hpresent : exists x, add d v = dict_set (key v) x d ∧ merge x v = x).
  { unfold add_child. destruct (dict_get (key v) d); eauto. }
  destruct Hpresent as (x & -> & Hx).
  by rewrite dict_get_set_eq, dict_set_set, Hx.
Qed.

Lemma add_child_comm d v w :
  key v ≠ key w -> is_Some (dict_get (key v) d) ->
  add (add d w) v = add (add d v) w.
Proof.
  intros Hne [e He].
  assert (Hv : forall d', dict_get (key v) d' = Some e ->
                 add d' v = dict_set (key v) (merge e v) d').
  { intros d' H. unfold add_child. by rewrite H. }
  rewrite (Hv d He), (Hv (add d w)) by (by rewrite add_child_get_ne).
  unfold add_child. rewrite dict_get_set_ne by done.
  destruct (dict_get (key w) d); apply dict_set_comm; eauto.
Qed.

Lemma add_child_is_Some d v k :
  is_Some (dict_get k d) -> is_Some (dict_get k (add d v)).
Proof.
  rewrite !dict_get_is_Some, add_child_keys. by left.
Qed.

Lemma add_children_comm d vs v :
  key v ∉ key <$> vs -> is_Some (dict_get (key v) d) ->
  add (add_all d vs) v = add_all (add d v) vs.
Proof.
  unfold add_children. revert d.
  induction vs as [|w vs IH]; intros d Hfresh Hin; simpl; [done|].
  rewrite fmap_cons, not_elem_of_cons in Hfresh. destruct Hfresh as [Hne Hfresh].
  rewrite IH by auto using add_child_is_Some.
  by rewrite add_child_comm.
Qed.

Lemma add_children_twice d vs :
  NoDup (key <$> vs) ->
  (forall v, v ∈ vs ->
     merge v v = v ∧ forall e, merge (merge e v) v = merge e v) ->
  add_all (add_all d vs) vs = add_all d vs.
Proof.
  revert d. induction vs as [|v vs IH]; intros d Hnodup Hidem; [done|].
  rewrite fmap_cons, NoDup_cons in Hnodup. destruct Hnodup as [Hfresh Hnodup].
  destruct (Hidem v) as [Hself Hagain]; [by left|].
  rewrite !add_children_cons, add_children_comm.
  - rewrite add_child_twice by done. apply IH; [done|].
    intros w Hw. apply Hidem. by right.
  - done.
  - apply dict_get_is_Some, add_child_keys. by right.
Qed.

Lemma add_children_fixed d vs :
  (forall v, v ∈ vs -> dict_get (key v) d = Some v ∧ merge v v = v) ->
  add_all d vs = d.
Proof.
  unfold add_children. induction vs as [|v vs IH]; intros H; simpl; [done|].
  destruct (H v) as [Hget Hself]; [by left|].
  unfold add_child at 2. rewrite Hget, Hself, dict_set_get_id by done.
  apply IH. intros w Hw. apply H. by right.
Qed.

Lemma add_children_self d :
  keyed_by key d = true ->
  (forall v, v ∈ dict_values d -> merge v v = v) ->
  add_all d (dict_values d) = d.
Proof.
  intros Hwf Hself. apply add_children_fixed. intros v Hv.
  split; [|by apply Hself].
  unfold dict_values in Hv. apply list_elem_of_fmap in Hv as ([k v'] & -> & Hin).
  destruct (keyed_by_get key k v' d Hwf Hin) as [Hget ->]. done.
Qed.
End add_child_facts.

(** ** Merging tests, builds and jobs *)

Lemma fill_self {A} (falsy : A -> bool) (x : A) :
  (if falsy x then x else x) = x.
Proof. by destruct (falsy x). Qed.

Lemma fill_again {A} (falsy : A -> bool) (existing incoming : A) :
  (if falsy (if falsy existing then incoming else existing)
   then incoming else (if falsy existing then incoming else existing)) =
  (if falsy existing then incoming else existing).
Proof.
  destruct (falsy existing) eqn:He; [apply fill_self | by rewrite He].
Qed.

Lemma Test_merge_self t : Test_merge t t = t.
Proof.
  destruct t as [n r d c]. unfold Test_merge; simpl.
  by rewrite !fill_self.
Qed.

Lemma Test_merge_again e t : Test_merge (Test_merge e t) t = Test_merge e t.
Proof.
  unfold Test_merge; simpl. by rewrite !fill_again.
Qed.

Lemma Build_add_tests_fold ts b :
  fold_left Build_add_test ts b =
  mkBuild (build_id b) (build_status b) (build_duration b)
          (add_children test_name Test_merge (build_tests b) ts).
Proof.
  revert b. induction ts as [|t ts IH]; intros b; simpl.
  - by destruct b.
  - rewrite IH. unfold add_children, add_child, Build_add_test; simpl.
    by destruct (dict_get (test_name t) (build_tests b)).
Qed.

Lemma Build_merge_eq self other :
  Build_merge self other =
  mkBuild (build_id self)
          (if py_not (build_status self)
           then build_status other else build_status self)
          (build_duration self)
          (add_children test_name Test_merge (build_tests self)
                        (dict_values (build_tests other))).
Proof.
  unfold Build_merge. rewrite Build_add_tests_fold.
  by destruct (py_not (build_status self)).
Qed.

Lemma Job_add_builds_fold bs j :
  fold_left Job_add_build bs j =
  mkJob (job_name j) (job_url j)
        (add_children build_id Build_merge (job_builds j) bs).
Proof.
  revert j. induction bs as [|b bs IH]; intros j; simpl.
  - by destruct j.
  - rewrite IH. unfold add_children, add_child, Job_add_build; simpl.
    by destruct (dict_get (build_id b) (job_builds j)).
Qed.

Lemma Job_merge_eq self other :
  Job_merge self other =
  mkJob (job_name self)
        (if py_not (job_url self) then job_url other else job_url self)
        (add_children build_id Build_merge (job_builds self)
                      (dict_values (job_builds other))).
Proof.
  unfold Job_merge. rewrite Job_add_builds_fold.
  by destruct (py_not (job_url self)).
Qed.

Lemma Build_merge_self b : Build_wf b = true -> Build_merge b b = b.
Proof.
  intros Hwf. rewrite Build_merge_eq, add_children_self.
  - destruct b as [i s d ts]; simpl. by rewrite fill_self.
  - done.
  - intros t _. apply Test_merge_self.
Qed.

Lemma Build_merge_again e b :
  Build_wf b = true -> Build_merge (Build_merge e b) b = Build_merge e b.
Proof.
  intros Hwf. rewrite !Build_merge_eq; simpl. f_equal.
  - apply fill_again.
  - apply add_children_twice.
    + rewrite (keyed_by_keys test_name) by done.
      by apply (keyed_by_NoDup test_name).
    + intros t _. split; [apply Test_merge_self | intros; apply Test_merge_again].
Qed.

Lemma Job_wf_builds j b :
  Job_wf j = true -> b ∈ dict_values (job_builds j) -> Build_wf b = true.
Proof.
  unfold Job_wf. rewrite andb_true_iff, forallb_forall.
  intros [_ H] Hin. by apply H, list_elem_of_In.
Qed.

Lemma Job_merge_self j : Job_wf j = true -> Job_merge j j = j.
Proof.
  intros Hwf. rewrite Job_merge_eq, add_children_self.
  - destruct j as [n u bs]; simpl. by rewrite fill_self.
  - unfold Job_wf in Hwf. by apply andb_true_iff in Hwf as [? _].
  - intros b Hb. apply Build_merge_self. by apply (Job_wf_builds j).
Qed.

Lemma Job_merge_again e j :
  Job_wf j = true -> Job_merge (Job_merge e j) j = Job_merge e j.
Proof.
  intros Hwf. rewrite !Job_merge_eq; simpl. f_equal.
  - apply fill_again.
  - assert (Hkeys : keyed_by build_id (job_builds j) = true).
    { unfold Job_wf in Hwf. by apply andb_true_iff in Hwf as [? _]. }
    apply add_children_twice.
    + rewrite (keyed_by_keys build_id) by done.
      by apply (keyed_by_NoDup build_id).
    + intros b Hb. pose proof (Job_wf_builds j b Hwf Hb) as Hb'.
      split; [by apply Build_merge_self | intros; by apply Build_merge_again].
Qed.

(** [Build.add_test] and [Job.add_build] look the child up by its key:
    they merge into the child found there, or store the new one. *)
Lemma Build_add_test_spec self test :
  build_tests (Build_add_test self test) =
  match dict_get (test_name test) (build_tests self) with
  | Some existing =>
      dict_set (test_name test) (Test_merge existing test) (build_tests self)
  | None => dict_set (test_name test) test (build_tests self)
  end.
Proof.
  unfold Build_add_test.
  by destruct (dict_get (test_name test) (build_tests self)).
Qed.

Lemma Job_add_build_spec self build :
  job_builds (Job_add_build self build) =
  match dict_get (build_id build) (job_builds self) with
  | Some existing =>
      dict_set (build_id build) (Build_merge existing build) (job_builds self)
  | None => dict_set (build_id build) build (job_builds self)
  end.
Proof.
  unfold Job_add_build.
  by destruct (dict_get (build_id build) (job_builds self)).
Qed.

(** Scenario B of the specification. *)
Example scenario_B :
  Job_add_build (Job_add_build (mkJob "j" None []) build_with_status)
                build_with_test =
  mkJob "j" None
        [("1", mkBuild "1" (Some "SUCCESS") None
                       [("t1", mkTest "t1" None None None)])].
Proof. reflexivity. Qed.

(** No job compares equal to a string, so a name is never found among the
    values of the jobs collection. *)
Lemma str_in_jobs_false x vs : str_in_jobs x vs = false.
Proof. unfold str_in_jobs. by induction vs. Qed.

(** [System.add_job] therefore always takes the branch that stores the
    incoming job under its name. *)
Lemma System_add_job_stores self job :
  System_add_job self job =
  Return (mkSystem (system_name self) (system_type self)
            (system_jobs_scope self) (system_sources self)
            (dict_set (job_name job) job (system_jobs self))).
Proof. unfold System_add_job. by rewrite str_in_jobs_false. Qed.

(** C1. [System.add_job] is expected to merge the incoming job into the job
    already stored under the same name.  On a system that holds job [j]
    with build [1] and a URL, adding a report of [j] with build [2] stores
    the report in place of the known job; the merge of the two, which has
    both builds and the URL, is not what the system holds afterwards. *)
Theorem System_add_job_replaces_known_job :
  dict_get "j" (system_jobs known_system) = Some known_job ∧
  System_add_job known_system reported_job =
    Return (mkSystem "ci" "jenkins" "*" [] [("j", reported_job)]) ∧
  Job_merge known_job reported_job =
    mkJob "j" (Some "http://ci/job/j")
          [("1", mkBuild "1" (Some "SUCCESS") None []);
           ("2", mkBuild "2" (Some "FAILURE") None [])] ∧
  Job_merge known_job reported_job ≠ reported_job.
Proof. repeat split; [reflexivity..|discriminate]. Qed.

(** [Build.merge] keeps the tests of both sides, [Job.merge] the builds of
    both sides: the keys of the result are those of the receiver together
    with the identity keys of the incoming children. *)
Lemma Build_merge_tests self other k :
  k ∈ dict_keys (build_tests (Build_merge self other)) <->
  k ∈ dict_keys (build_tests self) ∨
  k ∈ test_name <$> dict_values (build_tests other).
Proof. rewrite Build_merge_eq; simpl. apply add_children_keys. Qed.

Lemma Job_merge_builds self other k :
  k ∈ dict_keys (job_builds (Job_merge self other)) <->
  k ∈ dict_keys (job_builds self) ∨
  k ∈ build_id <$> dict_values (job_builds other).
Proof. rewrite Job_merge_eq; simpl. apply add_children_keys. Qed.

Lemma Build_merge_keeps_tests self other k :
  Build_wf other = true ->
  k ∈ dict_keys (build_tests self) ∨ k ∈ dict_keys (build_tests other) ->
  k ∈ dict_keys (build_tests (Build_merge self other)).
Proof.
  intros Hwf H. apply Build_merge_tests.
  by rewrite (keyed_by_keys test_name).
Qed.

Lemma Job_merge_keeps_builds self other k :
  Job_wf other = true ->
  k ∈ dict_keys (job_builds self) ∨ k ∈ dict_keys (job_builds other) ->
  k ∈ dict_keys (job_builds (Job_merge self other)).
Proof.
  intros Hwf H. apply Job_merge_builds.
  rewrite (keyed_by_keys build_id); [done|].
  unfold Job_wf in Hwf. by apply andb_true_iff in Hwf as [? _].
Qed.

(** C4. Merging must not drop a child that only one side has, also when a
    job is added to a system that already holds a job of that name.  Build
    [1] is known to the system under job [j]; after [add_job] of a report
    of [j] that lacks it, job [j] of the system has build [2] and no build
    [1]. *)
Theorem System_add_job_drops_known_build :
  "1" ∈ dict_keys (job_builds known_job) ∧
  exists system' job',
    System_add_job known_system reported_job = Return system' ∧
    dict_get "j" (system_jobs system') = Some job' ∧
    dict_keys (job_builds job') = ["2"] ∧
    dict_get "1" (job_builds job') = None.
Proof.
  split; [by apply dict_get_is_Some; eexists|].
  eexists _, _. repeat split; reflexivity.
Qed.

(** C5. Scalar fields merge first-writer-wins: after [Job.merge] the URL
    is the incoming one when the receiver's was unset or empty and the
    receiver's own otherwise, whatever the incoming value; likewise for
    the status under [Build.merge]. *)
Theorem scalar_fields_first_writer_wins :
  (forall existing incoming : Job,
     job_url (Job_merge existing incoming) =
     if py_not (job_url existing)
     then job_url incoming else job_url existing) ∧
  (forall existing incoming : Build,
     build_status (Build_merge existing incoming) =
     if py_not (build_status existing)
     then build_status incoming else build_status existing).
Proof.
  split; intros existing incoming.
  - by rewrite Job_merge_eq.
  - by rewrite Build_merge_eq.
Qed.

(** Adding the same job to a system a second time changes nothing. *)
Lemma System_add_job_again s j :
  System_add_job s j ≫= (fun s' => System_add_job s' j) = System_add_job s j.
Proof.
  rewrite !System_add_job_stores. simpl.
  rewrite System_add_job_stores. simpl. by rewrite dict_set_set.
Qed.

(** C6. Merge is idempotent at every level, for entities keyed by
    identity: a test, a build or a job merged into itself is unchanged,
    merging the same incoming test, build or job a second time changes
    nothing, and neither does adding the same job to a system a second
    time. *)
Theorem merge_idempotent (j e : Job) (b x : Build) (t y : Test) (s : System) :
  Job_wf j = true -> Build_wf b = true ->
  Test_merge t t = t ∧
  Test_merge (Test_merge y t) t = Test_merge y t ∧
  Build_merge b b = b ∧
  Build_merge (Build_merge x b) b = Build_merge x b ∧
  Job_merge j j = j ∧
  Job_merge (Job_merge e j) j = Job_merge e j ∧
  System_add_job s j ≫= (fun s' => System_add_job s' j) = System_add_job s j.
Proof.
  intros Hj Hb. repeat split.
  - apply Test_merge_self.
  - apply Test_merge_again.
  - by apply Build_merge_self.
  - by apply Build_merge_again.
  - by apply Job_merge_self.
  - by apply Job_merge_again.
  - apply System_add_job_again.
Qed.

Lemma merge_idempotent_witness :
  Job_wf reported_job = true ∧ Build_wf build_with_test = true ∧
  (Test_merge bare_test bare_test = bare_test ∧
   Test_merge (Test_merge failed_test bare_test) bare_test =
     Test_merge failed_test bare_test ∧
   Build_merge build_with_test build_with_test = build_with_test ∧
   Build_merge (Build_merge build_with_status build_with_test)
               build_with_test =
     Build_merge build_with_status build_with_test ∧
   Job_merge reported_job reported_job = reported_job ∧
   Job_merge (Job_merge known_job reported_job) reported_job =
     Job_merge known_job reported_job ∧
   System_add_job known_system reported_job ≫=
     (fun s' => System_add_job s' reported_job) =
     System_add_job known_system reported_job).
Proof.
  split; [reflexivity|]. split; [reflexivity|].
  apply (merge_idempotent reported_job known_job
                          build_with_test build_with_status
                          bare_test failed_test known_system);
    reflexivity.
Defined.

(** ** The source resolver *)

Lemma speed_fold (speed_index : speed_table) args base :
  fold_left (fun speed arg => speed + speed_get speed_index arg) args base =
  base + extra_scores speed_index args.
Proof.
  revert base. induction args as [|arg args IH]; intros base; simpl.
  - lia.
  - rewrite IH. unfold extra_scores. simpl. lia.
Qed.

Lemma get_source_speed_score_eq source func_name args speed_index :
  getattr source func_name = Some (AttrMethod (Some speed_index)) ->
  get_source_speed_score source func_name args =
  Return (speed_get speed_index "base" + extra_scores speed_index args).
Proof.
  intros H. unfold get_source_speed_score. by rewrite H, speed_fold.
Qed.

(** What one iteration does to the selection. *)
Lemma select_step_cases func_name args st source st' :
  select_step func_name args st source = Return st' ->
  (is_source_valid source func_name = Return false ∧ st' = st) ∨
  (is_source_valid source func_name = Return true ∧
   exists v, get_source_speed_score source func_name args = Return v ∧
     ((v <= st.1 ∧ st' = st) ∨
      (st.1 < v ∧ st' = (v, Some (BoundMethod source func_name))))).
Proof.
  unfold select_step.
  destruct (is_source_valid source func_name) as [[]|] eqn:Hvalid;
    simpl; [|intros [= <-]; by left|done].
  destruct (get_source_speed_score source func_name args) as [v|] eqn:Hv;
    simpl; [|done].
  destruct (v >? st.1) eqn:Hgt; intros [= <-]; right; split; try done;
    exists v; split; try done; [right|left]; split; try done; lia.
Qed.

Lemma summary_score_nonneg func_name args seen st :
  summary func_name args seen st -> 0 <= st.1.
Proof.
  unfold summary, best_at. destruct st as [score [m|]]; simpl.
  - intros (_ & ? & ? & _ & _ & _ & ? & _). lia.
  - intros [-> _]. lia.
Qed.

Lemma summary_step func_name args seen st source st' :
  summary func_name args seen st ->
  select_step func_name args st source = Return st' ->
  summary func_name args (seen ++ [source]) st'.
Proof.
  intros Hsum Hstep. pose proof (summary_score_nonneg _ _ _ _ Hsum) as Hpos.
  apply select_step_cases in Hstep
    as [[Hinvalid ->]|(Hvalid & v & Hv & [[Hle ->]|[Hlt ->]])].
  - (* the source is skipped *)
    unfold summary in *. destruct st as [score [m|]]; simpl in *.
    + destruct Hsum as (Hname & earlier & later & -> & Hm & Hscore & H0 & Hbefore & Hafter).
      split; [done|]. exists earlier, (later ++ [source])%list.
      rewrite <- app_assoc. repeat split; try done.
      intros s [Hs| ->%list_elem_of_singleton]%elem_of_app Hs'; [eauto|congruence].
    + destruct Hsum as [-> Hall]. split; [done|].
      intros s [Hs| ->%list_elem_of_singleton]%elem_of_app Hs'; [eauto|congruence].
  - (* the source does not beat the selection *)
    unfold summary in *. destruct st as [score [m|]]; simpl in *.
    + destruct Hsum as (Hname & earlier & later & -> & Hm & Hscore & H0 & Hbefore & Hafter).
      split; [done|]. exists earlier, (later ++ [source])%list.
      rewrite <- app_assoc. repeat split; try done.
      intros s [Hs| ->%list_elem_of_singleton]%elem_of_app Hs'; eauto.
    + destruct Hsum as [-> Hall]. split; [done|].
      intros s [Hs| ->%list_elem_of_singleton]%elem_of_app Hs'; eauto.
  - (* the source takes over *)
    unfold summary in *. simpl. split; [done|].
    exists seen, []. simpl. repeat split; try done; [lia| |by intros ? ?%elem_of_nil].
    intros s Hs Hs'. destruct st as [score [m|]]; simpl in *.
    + destruct Hsum as (Hname & earlier & later & -> & Hm & Hscore & H0 & Hbefore & Hafter).
      apply elem_of_app in Hs as [Hs|Hs]; [|apply elem_of_cons in Hs as [->|Hs]].
      * destruct (Hbefore s Hs Hs') as (w & ? & ?). exists w. split; [done|lia].
      * exists score. split; [done|lia].
      * destruct (Hafter s Hs Hs') as (w & ? & ?). exists w. split; [done|lia].
    + destruct Hsum as [-> Hall].
      destruct (Hall s Hs Hs') as (w & ? & ?). exists w. split; [done|lia].
Qed.

Lemma summary_loop func_name args sources seen st st' :
  summary func_name args seen st ->
  select_loop func_name args sources st = Return st' ->
  summary func_name args (seen ++ sources) st'.
Proof.
  revert seen st. induction sources as [|source rest IH]; intros seen st Hsum; simpl.
  - intros [= <-]. by rewrite app_nil_r.
  - destruct (select_step func_name args st source) as [st1|] eqn:Hstep;
      simpl; [|done].
    intros Hloop. rewrite (assoc_L _ seen [source] rest : (seen ++ source :: rest = (seen ++ [source]) ++ rest)%list).
    eapply IH; [|done]. by eapply summary_step.
Qed.

Lemma get_source_method_first_best system_name sources func_name args m :
  get_source_method system_name sources func_name args = Return m ->
  first_best func_name args sources m.
Proof.
  unfold get_source_method.
  destruct (select_loop func_name args sources (0, None)) as [st|] eqn:Hloop;
    simpl; [|done].
  destruct st as [score [m'|]] eqn:Hst; simpl; [|done]. intros [= ->].
  exists score.
  apply (summary_loop _ _ _ [] (0, None)) in Hloop; [done|].
  split; [done|]. by intros ? ?%elem_of_nil.
Qed.

(** When [NoSupportedSourcesFound] is raised, no enabled source that
    declares the operation has a positive score. *)
Lemma get_source_method_not_found system_name sources func_name args e :
  get_source_method system_name sources func_name args = Raise e ->
  (exists s, s ∈ sources ∧ (is_source_valid s func_name = Raise e ∨
                           get_source_speed_score s func_name args = Raise e)) ∨
  (e = NoSupportedSourcesFound system_name func_name ∧
   forall s, s ∈ sources -> is_source_valid s func_name = Return true ->
     exists v, get_source_speed_score s func_name args = Return v ∧ v <= 0).
Proof.
  unfold get_source_method.
  destruct (select_loop func_name args sources (0, None)) as [st|e'] eqn:Hloop;
    simpl.
  - destruct st as [score [m'|]] eqn:Hst; simpl; [done|]. intros [= <-].
    right. split; [done|].
    apply (summary_loop _ _ _ [] (0, None)) in Hloop.
    + by destruct Hloop as [_ Hall].
    + split; [done|]. by intros ? ?%elem_of_nil.
  - intros [= ->]. left. clear -Hloop.
    revert Hloop. generalize (0, @None bound_method).
    induction sources as [|source rest IH]; intros st; simpl; [done|].
    destruct (select_step func_name args st source) as [st1|e1] eqn:Hstep; simpl.
    + intros (s & Hs & H)%IH. exists s. split; [by right|done].
    + intros [= ->]. exists source. split; [by left|].
      unfold select_step in Hstep.
      destruct (is_source_valid source func_name) as [[]|] eqn:Hvalid;
        simpl in Hstep; [|done|left; congruence].
      destruct (get_source_speed_score source func_name args) as [v|] eqn:Hv;
        simpl in Hstep; [by destruct (v >? st.1)|right; congruence].
Qed.

(** Changing the [priority] entry of a source changes no other
    attribute. *)
Lemma getattr_reprioritise p s attr :
  attr ≠ "priority" -> getattr (reprioritise p s) attr = getattr s attr.
Proof.
  intros Hne. unfold getattr, reprioritise, with_priority; simpl.
  by rewrite lookup_insert_ne.
Qed.

Lemma is_source_valid_reprioritise p s func_name :
  func_name ≠ "priority" ->
  is_source_valid (reprioritise p s) func_name = is_source_valid s func_name.
Proof.
  intros Hne. unfold is_source_valid, hasattr.
  by rewrite !getattr_reprioritise.
Qed.

Lemma get_source_speed_score_reprioritise p s func_name args :
  func_name ≠ "priority" ->
  get_source_speed_score (reprioritise p s) func_name args =
  get_source_speed_score s func_name args.
Proof.
  intros Hne. unfold get_source_speed_score.
  by rewrite getattr_reprioritise.
Qed.

Lemma select_loop_reprioritise p func_name args (sources : list Source) st :
  func_name ≠ "priority" ->
  select_loop func_name args (reprioritise p <$> sources)
              (rebind_state p st) =
  rebind_state p <$> select_loop func_name args sources st.
Proof.
  intros Hne. revert st.
  induction sources as [|source rest IH]; intros st; [done|].
  rewrite fmap_cons. cbn [select_loop]. unfold select_step.
  rewrite is_source_valid_reprioritise, get_source_speed_score_reprioritise
    by done.
  destruct (is_source_valid source func_name) as [[]|]; simpl; [|apply IH|done].
  destruct (get_source_speed_score source func_name args) as [v|];
    simpl; [|done].
  destruct (v >? st.1); simpl; [|apply IH].
  apply (IH (v, Some (BoundMethod source func_name))).
Qed.

Lemma get_source_method_reprioritise p system_name (sources : list Source)
    func_name args :
  func_name ≠ "priority" ->
  get_source_method system_name (reprioritise p <$> sources) func_name args =
  rebind p <$> get_source_method system_name sources func_name args.
Proof.
  intros Hne. unfold get_source_method.
  rewrite (select_loop_reprioritise p _ _ _ (0, None)) by done.
  destruct (select_loop func_name args sources (0, None)) as [[score [m|]]|];
    reflexivity.
Qed.

(** The loop runs to its end when every source can be judged: it is not
    valid, or it is valid and its method has a speed table. *)
Lemma select_loop_returns func_name args sources st :
  (forall s, s ∈ sources ->
     is_source_valid s func_name = Return false ∨
     (is_source_valid s func_name = Return true ∧
      exists v, get_source_speed_score s func_name args = Return v)) ->
  exists st', select_loop func_name args sources st = Return st'.
Proof.
  revert st. induction sources as [|source rest IH]; intros st Hall; simpl.
  - by eexists.
  - assert (Hstep : exists st1,
              select_step func_name args st source = Return st1).
    { unfold select_step.
      destruct (Hall source) as [->|[-> (v & ->)]]; [by left| |]; simpl.
      - by eexists.
      - destruct (v >? st.1); by eexists. }
    destruct Hstep as [st1 ->]. simpl. apply IH.
    intros s Hs. apply Hall. by right.
Qed.

(** A method is returned as soon as some valid source scores more
    than 0. *)
Lemma get_source_method_returns system_name sources func_name args :
  (forall s, s ∈ sources ->
     is_source_valid s func_name = Return false ∨
     (is_source_valid s func_name = Return true ∧
      exists v, get_source_speed_score s func_name args = Return v)) ->
  (exists s v, s ∈ sources ∧ is_source_valid s func_name = Return true ∧
               get_source_speed_score s func_name args = Return v ∧ 0 < v) ->
  exists m, get_source_method system_name sources func_name args = Return m ∧
            first_best func_name args sources m.
Proof.
  intros Hall (s & v & Hs & Hvalid & Hv & Hpos).
  destruct (select_loop_returns func_name args sources (0, None) Hall)
    as [[score best] Hloop].
  pose proof Hloop as Hsum.
  apply (summary_loop _ _ _ [] (0, None)) in Hsum;
    [|split; [done|by intros ? ?%elem_of_nil]].
  destruct best as [m|].
  - exists m. split.
    + unfold get_source_method. by rewrite Hloop.
    + by exists score.
  - destruct Hsum as [_ Hnone]. simpl in Hnone.
    destruct (Hnone s Hs Hvalid) as (w & Hw & ?).
    rewrite Hv in Hw. simplify_eq. lia.
Qed.

(** When no source is valid, [NoSupportedSourcesFound] is raised. *)
Lemma get_source_method_no_valid_source system_name sources func_name args :
  (forall s, s ∈ sources -> is_source_valid s func_name = Return false) ->
  get_source_method system_name sources func_name args =
  Raise (NoSupportedSourcesFound system_name func_name).
Proof.
  intros Hall. unfold get_source_method.
  assert (Hloop : select_loop func_name args sources (0, None) =
                  Return (0, None)).
  { generalize (0, @None bound_method).
    induction sources as [|source rest IH]; intros st; simpl; [done|].
    unfold select_step. rewrite (Hall source) by (by left). simpl.
    apply IH. intros s Hs. apply Hall. by right. }
  by rewrite Hloop.
Qed.

(** Scenario A of the specification. *)
Example scenario_A :
  get_source_method "ci" [source_X; source_Y] "get_builds" [] =
  Return (BoundMethod source_Y "get_builds").
Proof. reflexivity. Qed.

(** C2. [NoSupportedSourcesFound] is documented as raised when no enabled
    source has the function.  A single attached source that is enabled and
    declares [get_jobs] with base score 0 is valid for [get_jobs], and the
    resolver still raises [NoSupportedSourcesFound] instead of returning
    its method. *)
Theorem get_source_method_rejects_zero_score :
  is_source_valid idle_source "get_jobs" = Return true ∧
  get_source_speed_score idle_source "get_jobs" [] = Return 0 ∧
  get_source_method "ci" [idle_source] "get_jobs" [] =
    Raise (NoSupportedSourcesFound "ci" "get_jobs").
Proof. repeat split; reflexivity. Qed.

(** C3. The score of a candidate is the base score of the operation plus
    the extra scores of the supplied flags; an iteration replaces the
    selection exactly when the candidate is enabled, declares the operation
    and scores strictly more than the selection; the method returned is
    that of the first attached source with the greatest score, and one is
    returned whenever some candidate scores more than 0; and the priority
    of the sources does not influence which one that is. *)
Theorem resolver_selects_first_best
    (system_name func_name : string) (args : list string)
    (sources : list Source) :
  func_name ≠ "priority" ->
  (forall source speed_index,
     getattr source func_name = Some (AttrMethod (Some speed_index)) ->
     get_source_speed_score source func_name args =
     Return (speed_get speed_index "base" + extra_scores speed_index args)) ∧
  (forall st source st',
     select_step func_name args st source = Return st' ->
     (is_source_valid source func_name = Return false ∧ st' = st) ∨
     (is_source_valid source func_name = Return true ∧
      exists v, get_source_speed_score source func_name args = Return v ∧
        ((v <= st.1 ∧ st' = st) ∨
         (st.1 < v ∧ st' = (v, Some (BoundMethod source func_name)))))) ∧
  (forall m,
     get_source_method system_name sources func_name args = Return m ->
     first_best func_name args sources m) ∧
  ((forall s, s ∈ sources ->
      is_source_valid s func_name = Return false ∨
      (is_source_valid s func_name = Return true ∧
       exists v, get_source_speed_score s func_name args = Return v)) ->
   (exists s v, s ∈ sources ∧ is_source_valid s func_name = Return true ∧
                get_source_speed_score s func_name args = Return v ∧ 0 < v) ->
   exists m,
     get_source_method system_name sources func_name args = Return m ∧
     first_best func_name args sources m) ∧
  (forall p : Source -> pyval,
     get_source_method system_name (reprioritise p <$> sources)
                       func_name args =
     rebind p <$> get_source_method system_name sources func_name args).
Proof.
  intros Hne. repeat split.
  - intros source speed_index. apply get_source_speed_score_eq.
  - intros st source st'. apply select_step_cases.
  - intros m. apply get_source_method_first_best.
  - apply get_source_method_returns.
  - intros p. by apply get_source_method_reprioritise.
Qed.

Lemma resolver_selects_first_best_witness :
  "get_builds" ≠ "priority" ∧
  first_best "get_builds" [] [source_X; source_Y]
             (BoundMethod source_Y "get_builds").
Proof.
  split; [discriminate|].
  apply (resolver_selects_first_best "ci" "get_builds" [] [source_X; source_Y]);
    [discriminate|reflexivity].
Defined.

(** ** The scope validator *)

Lemma check_names_missing all_envs exception_to_raise names :
  (exists name, name ∈ names ∧ name ∉ all_envs) ->
  exists missing,
    missing ∈ names ∧ (missing ∉ all_envs) ∧
    check_names all_envs exception_to_raise names =
    Raise (exception_to_raise missing all_envs).
Proof.
  induction names as [|n names IH]; intros (name & Hin & Hmissing).
  - by apply elem_of_nil in Hin.
  - simpl. case_bool_decide as Hn.
    + destruct IH as (missing & ? & ? & ?).
      { exists name. split; [|done].
        apply elem_of_cons in Hin as [->|?]; done. }
      exists missing. split; [by right|done].
    + exists n. split; [by left|done].
Qed.

Lemma check_names_present all_envs exception_to_raise names :
  (forall name, name ∈ names -> name ∈ all_envs) ->
  check_names all_envs exception_to_raise names = Return tt.
Proof.
  induction names as [|n names IH]; intros Hall; simpl; [done|].
  rewrite bool_decide_eq_true_2 by (apply Hall; by left).
  apply IH. intros name Hin. apply Hall. by right.
Qed.

Lemma check_names_outcome all_envs exception_to_raise names e :
  check_names all_envs exception_to_raise names = Raise e ->
  exists missing, missing ∈ names ∧ (missing ∉ all_envs) ∧
                  e = exception_to_raise missing all_envs.
Proof.
  induction names as [|n names IH]; simpl; [done|].
  case_bool_decide as Hn.
  - intros (missing & ? & ? & ?)%IH. exists missing. split; [by right|done].
  - intros [= <-]. exists n. split; [by left|done].
Qed.

(** The second loop computes the surviving environments and systems and
    leaves every dropped environment as it was. *)
Lemma filter_environments_user_envs args environments :
  user_envs (filter_environments args environments) =
  surviving_environments args environments.
Proof.
  unfold surviving_environments.
  induction environments as [|env rest IH]; simpl; [done|].
  unfold surviving.
  destruct (_consistent_environment args env); simpl; [|done].
  destruct (List.filter (_consistent_system args) (env_systems env));
    simpl; by rewrite IH.
Qed.

Lemma filter_environments_user_systems args environments :
  user_systems (filter_environments args environments) =
  surviving_systems args environments.
Proof.
  unfold surviving_systems, surviving_environments.
  induction environments as [|env rest IH]; simpl; [done|].
  unfold surviving.
  destruct (_consistent_environment args env); simpl; [|done].
  destruct (List.filter (_consistent_system args) (env_systems env));
    simpl; by rewrite IH.
Qed.

Lemma filter_environments_after args environments :
  environments_after (filter_environments args environments) =
  (fun env => default env (surviving args env)) <$> environments.
Proof.
  induction environments as [|env rest IH]; simpl; [done|].
  unfold surviving.
  destruct (_consistent_environment args env); simpl; [|by rewrite IH].
  destruct (List.filter (_consistent_system args) (env_systems env));
    simpl; by rewrite IH.
Qed.

(** The user's source names meet those of the system when some attached
    source is named in the request. *)
Lemma sources_intersect (requested : list string) (sources : list Source) :
  (list_to_set requested : gset string) ∩
    list_to_set (source_name <$> sources) ≠ ∅ <->
  exists source, source ∈ sources ∧ source_name source ∈ requested.
Proof.
  split.
  - intros (name & Hname)%set_choose_L.
    rewrite elem_of_intersection, !elem_of_list_to_set, list_elem_of_fmap
      in Hname.
    destruct Hname as (? & source & -> & ?). eauto.
  - intros (source & Hin & Hname) Hempty.
    assert (Hx : source_name source ∈
              (list_to_set requested : gset string) ∩
              list_to_set (source_name <$> sources)).
    { rewrite elem_of_intersection, !elem_of_list_to_set, list_elem_of_fmap.
      eauto. }
    rewrite Hempty in Hx. by apply not_elem_of_empty in Hx.
Qed.

(** A system is consistent exactly when the three constraints hold. *)
Lemma _consistent_system_iff args system :
  _consistent_system args system = true <->
  type_requested args system ∧ name_requested args system ∧
  source_requested args system.
Proof.
  unfold _consistent_system, type_requested, name_requested, source_requested.
  destruct (args !! "system_type") as [t|];
    destruct (args !! "systems") as [n|];
    destruct (args !! "sources") as [r|];
    repeat match goal with
           | |- context [py_in ?x ?v] => destruct (py_in x v)
           end; simpl;
    try case_bool_decide;
    rewrite <- ?sources_intersect; intuition congruence.
Qed.

Lemma surviving_environments_spec args environments env' :
  env' ∈ surviving_environments args environments <->
  exists env, env ∈ environments ∧
    _consistent_environment args env = true ∧
    env_name env' = env_name env ∧
    env_systems env' = List.filter (_consistent_system args) (env_systems env) ∧
    env_systems env' ≠ [].
Proof.
  unfold surviving_environments. rewrite list_elem_of_omap.
  split; intros (env & Hin & H); exists env.
  - split; [done|]. unfold surviving in H.
    destruct (_consistent_environment args env); [|done].
    destruct (List.filter (_consistent_system args) (env_systems env)) eqn:Hf;
      [done|]. by simplify_eq.
  - split; [done|]. destruct H as (Hc & Hn & Hs & Hne).
    unfold surviving. rewrite Hc.
    destruct (List.filter (_consistent_system args) (env_systems env)) eqn:Hf.
    + by rewrite Hs in Hne.
    + destruct env'; simpl in *. by subst.
Qed.

Lemma elem_of_concat {A} (x : A) (ls : list (list A)) :
  x ∈ concat ls <-> exists l, x ∈ l ∧ l ∈ ls.
Proof.
  rewrite list_elem_of_In, in_concat. split.
  - intros (l & ? & ?). exists l. by rewrite !list_elem_of_In.
  - intros (l & ? & ?). exists l. by rewrite <- !list_elem_of_In.
Qed.

Lemma surviving_systems_spec args environments system :
  system ∈ surviving_systems args environments <->
  exists env, env ∈ environments ∧
    _consistent_environment args env = true ∧
    system ∈ env_systems env ∧ _consistent_system args system = true.
Proof.
  unfold surviving_systems. rewrite elem_of_concat. split.
  - intros (l & Hsys & (env' & -> & Henv')%list_elem_of_fmap).
    apply surviving_environments_spec in Henv'
      as (env & Hin & Hc & _ & Hs & _).
    rewrite Hs in Hsys. apply list_elem_of_In, filter_In in Hsys as [Hsys ?].
    exists env. repeat split; try done. by apply list_elem_of_In.
  - intros (env & Hin & Hc & Hsys & Hok).
    assert (Hkept : system ∈ List.filter (_consistent_system args) (env_systems env)).
    { apply list_elem_of_In, filter_In. split; [|done].
      by apply list_elem_of_In. }
    exists (List.filter (_consistent_system args) (env_systems env)).
    split; [done|]. apply list_elem_of_fmap.
    exists (mkEnvironment (env_name env)
              (List.filter (_consistent_system args) (env_systems env))).
    split; [done|]. apply surviving_environments_spec. exists env.
    repeat split; try done. simpl. intros Hnil. rewrite Hnil in Hkept.
    by apply elem_of_nil in Hkept.
Qed.

Lemma validate_environments_unknown_environment args environments e :
  _check_input_environments args (configured_environments environments)
    "env_name" InvalidEnvironment = Raise e ->
  validate_environments args environments = (Raise e, environments).
Proof.
  unfold validate_environments, configured_environments. by intros ->.
Qed.

Lemma validate_environments_unknown_system args environments e :
  _check_input_environments args (configured_environments environments)
    "env_name" InvalidEnvironment = Return tt ->
  _check_input_environments args (configured_systems environments)
    "systems" InvalidSystem = Raise e ->
  validate_environments args environments = (Raise e, environments).
Proof.
  unfold validate_environments, configured_environments, configured_systems.
  by intros -> ->.
Qed.

Lemma validate_environments_checked args environments :
  _check_input_environments args (configured_environments environments)
    "env_name" InvalidEnvironment = Return tt ->
  _check_input_environments args (configured_systems environments)
    "systems" InvalidSystem = Return tt ->
  validate_environments args environments =
  (match surviving_systems args environments with
   | [] => Raise (NoValidSystem (configured_systems environments))
   | systems => Return (surviving_environments args environments, systems)
   end,
   (fun env => default env (surviving args env)) <$> environments).
Proof.
  unfold validate_environments, configured_environments, configured_systems.
  intros -> ->.
  rewrite filter_environments_user_envs, filter_environments_user_systems,
    filter_environments_after.
  by destruct (surviving_systems args environments).
Qed.

(** C7. The validator checks existence before it filters.  A requested
    environment name that is not configured makes [validate_environments]
    raise [InvalidEnvironment] with that name and the configured names,
    whatever the other constraints are, and leaves every environment as it
    was.  A requested system name that is not configured does the same
    with [InvalidSystem], once the requested environment names are all
    known; if one of them is not, that error is the one raised. *)
Theorem validate_environments_checks_existence_first
    (args : ci_args) (environments : list Environment) :
  (forall requested,
     args !! "env_name" = Some requested ->
     (exists name, name ∈ py_iter requested ∧
                   name ∉ configured_environments environments) ->
     exists missing,
       missing ∈ py_iter requested ∧
       (missing ∉ configured_environments environments) ∧
       validate_environments args environments =
       (Raise (InvalidEnvironment missing
                 (configured_environments environments)),
        environments)) ∧
  (forall requested,
     args !! "systems" = Some requested ->
     (exists name, name ∈ py_iter requested ∧
                   name ∉ configured_systems environments) ->
     match _check_input_environments args
             (configured_environments environments)
             "env_name" InvalidEnvironment with
     | Return _ =>
         exists missing,
           missing ∈ py_iter requested ∧
           (missing ∉ configured_systems environments) ∧
           validate_environments args environments =
           (Raise (InvalidSystem missing (configured_systems environments)),
            environments)
     | Raise e => validate_environments args environments =
                  (Raise e, environments)
     end).
Proof.
  split; intros requested Hrequested Hunknown.
  - destruct (check_names_missing (configured_environments environments)
                InvalidEnvironment _ Hunknown) as (missing & ? & ? & Hcheck).
    exists missing. repeat split; try done.
    apply validate_environments_unknown_environment.
    unfold _check_input_environments. by rewrite Hrequested.
  - destruct (_check_input_environments args
                (configured_environments environments)
                "env_name" InvalidEnvironment) as [[]|e] eqn:Henv.
    + destruct (check_names_missing (configured_systems environments)
                  InvalidSystem _ Hunknown) as (missing & ? & ? & Hcheck).
      exists missing. repeat split; try done.
      apply validate_environments_unknown_system; [done|].
      unfold _check_input_environments. by rewrite Hrequested.
    + by apply validate_environments_unknown_environment.
Qed.

(** Scenario C of the specification. *)
Lemma validate_environments_checks_existence_first_witness :
  exists missing,
    missing ∈ ["prod"] ∧ (missing ∉ ["staging"]) ∧
    validate_environments request_prod [staging] =
    (Raise (InvalidEnvironment missing ["staging"]), [staging]).
Proof.
  apply (proj1 (validate_environments_checks_existence_first
                  request_prod [staging]) (ArgList ["prod"])).
  - reflexivity.
  - exists "prod". split; [by left|].
    intros [H|H%elem_of_nil]%elem_of_cons; [discriminate|done].
Defined.

Example scenario_C :
  validate_environments request_prod [staging] =
    (Raise (InvalidEnvironment "prod" ["staging"]), [staging]) ∧
  message (InvalidEnvironment "prod" ["staging"]) =
    "No such environment: prod" ++ nl ++
    "Please use one of the following available environments:" ++ nl ++
    "staging" ++ nl.
Proof. split; reflexivity. Qed.

(** C8. Once the requested names are known to exist, a system is returned
    only if it belongs to a requested environment and satisfies the type,
    name and source constraints, the last one meaning that some attached
    source is named in the request; an environment is returned with its
    surviving systems, and only if it has some; and when no system
    survives, [NoValidSystem] is raised instead. *)
Theorem validate_environments_filters
    (args : ci_args) (environments : list Environment) :
  _check_input_environments args (configured_environments environments)
    "env_name" InvalidEnvironment = Return tt ->
  _check_input_environments args (configured_systems environments)
    "systems" InvalidSystem = Return tt ->
  validate_environments args environments =
    (match surviving_systems args environments with
     | [] => Raise (NoValidSystem (configured_systems environments))
     | systems => Return (surviving_environments args environments, systems)
     end,
     (fun env => default env (surviving args env)) <$> environments) ∧
  (forall system,
     system ∈ surviving_systems args environments <->
     exists env, env ∈ environments ∧
       _consistent_environment args env = true ∧
       system ∈ env_systems env ∧
       type_requested args system ∧ name_requested args system ∧
       source_requested args system) ∧
  (forall env',
     env' ∈ surviving_environments args environments <->
     exists env, env ∈ environments ∧
       _consistent_environment args env = true ∧
       env_name env' = env_name env ∧
       env_systems env' =
         List.filter (_consistent_system args) (env_systems env) ∧
       env_systems env' ≠ []).
Proof.
  intros Henv Hsys. repeat split.
  - by apply validate_environments_checked.
  - intros (env & ? & ? & ? & Hok)%surviving_systems_spec.
    apply _consistent_system_iff in Hok. by exists env.
  - intros (env & ? & ? & ? & ?). apply surviving_systems_spec.
    exists env. by rewrite _consistent_system_iff.
  - by intros ?%surviving_environments_spec.
  - by intros ?%surviving_environments_spec.
Qed.

(** Scenario D of the specification. *)
Lemma validate_environments_filters_witness :
  validate_environments request_source_Y [staging] =
    (Raise (NoValidSystem ["ci"]), [staging]) ∧
  validate_environments request_source_X [staging] =
    (Return ([staging], env_systems staging), [staging]).
Proof.
  split.
  - apply (validate_environments_filters request_source_Y [staging]);
      reflexivity.
  - apply (validate_environments_filters request_source_X [staging]);
      reflexivity.
Defined.

(** ** The request wrapper *)

Lemma safe_request_generic_returns {A B} (request : A -> result pyexc B)
    custom_error args v :
  request args = Return v ->
  safe_request_generic request custom_error args = Return v.
Proof. unfold safe_request_generic. by intros ->. Qed.

(** The message of each [except] clause. *)
Lemma safe_request_generic_messages {A B} (request : A -> result pyexc B)
    custom_error args ex :
  request args = Raise ex ->
  safe_request_generic request custom_error args =
  if isinstance ex "requests.exceptions.SSLError" then
    Raise (PyExc custom_error
             "Please set certificates in order to connect to the system"
             None (Some ex))
  else if isinstance ex "requests.exceptions.ConnectionError" then
    Raise (PyExc custom_error
             ("Could not connect to target host, please ensure connection " ++
              "details are correct.") None (Some ex))
  else if isinstance ex "requests.exceptions.HTTPError" then
    match exc_status_code ex with
    | Some code =>
        Raise (PyExc custom_error
                 ("Got response " ++ pretty code ++ " from target host.")
                 None (Some ex))
    | None => Raise no_status_code
    end
  else if isinstance ex "Exception" then
    Raise (PyExc custom_error "Failure on request to target host."
             None (Some ex))
  else Raise ex.
Proof. unfold safe_request_generic, raise_from. by intros ->. Qed.

(** The tests of [safe_request] in tests/unit/sources/test_jenkins.py. *)
Example test_wraps_errors_jenkins_error :
  safe_request_generic (fun _ : unit => @Raise pyexc Z plain_exception)
                       JenkinsError tt =
  Raise (PyExc JenkinsError "Failure on request to target host." None
               (Some plain_exception)).
Proof. reflexivity. Qed.

Example test_returns_result_when_no_error :
  safe_request_generic (fun _ : unit => @Return pyexc Z 7) JenkinsError tt =
  Return 7.
Proof. reflexivity. Qed.

Example not_found_is_wrapped :
  safe_request_generic (fun _ : unit => @Raise pyexc Z not_found)
                       JenkinsError tt =
  Raise (PyExc JenkinsError "Got response 404 from target host." None
               (Some not_found)).
Proof. reflexivity. Qed.

(** An [HTTPError] without a response escapes as the [AttributeError] of
    the handler that formats the message. *)
Example bare_http_error_escapes :
  safe_request_generic (fun _ : unit => @Raise pyexc Z bare_http_error)
                       JenkinsError tt =
  Raise no_status_code.
Proof. reflexivity. Qed.

(** C9, as stated, fails: a [KeyboardInterrupt] raised during the request
    leaves the wrapped call as it is, not as a [JenkinsError]. *)
Lemma safe_request_generic_passes_KeyboardInterrupt :
  safe_request_generic interrupted_request JenkinsError tt =
    Raise keyboard_interrupt ∧
  ¬ exists msg cause,
      safe_request_generic interrupted_request JenkinsError tt =
      Raise (PyExc JenkinsError msg None cause).
Proof.
  split; [reflexivity|]. intros (msg & cause & H). discriminate H.
Qed.

Local Ltac wrapped :=
  eexists; split; [|reflexivity]; simpl; discriminate.

(** C9, amended. A call that returns passes its value through.  An
    exception matched by one of the [except] clauses, which are those
    deriving from [Exception], is replaced by the custom error with a
    message, raised from it, provided an HTTP error carries its response;
    any other exception propagates unchanged. *)
Theorem safe_request_generic_wraps {A B} (request : A -> result pyexc B)
    (custom_error : list string) (args : A) :
  (forall ex, request args = Raise ex ->
     isinstance ex "requests.exceptions.HTTPError" = true ->
     is_Some (exc_status_code ex)) ->
  match request args with
  | Return v => safe_request_generic request custom_error args = Return v
  | Raise ex =>
      if handled ex
      then exists msg,
             msg ≠ EmptyString ∧
             safe_request_generic request custom_error args =
             Raise (PyExc custom_error msg None (Some ex))
      else safe_request_generic request custom_error args = Raise ex
  end.
Proof.
  intros Hhttp. destruct (request args) as [v|ex] eqn:Hrequest.
  - by apply safe_request_generic_returns.
  - rewrite (safe_request_generic_messages _ _ _ _ Hrequest). unfold handled.
    destruct (isinstance ex "requests.exceptions.SSLError"); simpl;
      [wrapped|].
    destruct (isinstance ex "requests.exceptions.ConnectionError"); simpl;
      [wrapped|].
    destruct (isinstance ex "requests.exceptions.HTTPError") eqn:Hex; simpl.
    { destruct (Hhttp ex eq_refl Hex) as [code ->]. wrapped. }
    destruct (isinstance ex "Exception"); [wrapped|done].
Qed.

Lemma safe_request_generic_wraps_witness :
  exists msg,
    msg ≠ EmptyString ∧
    safe_request_generic (fun _ : unit => @Raise pyexc Z not_found)
                         JenkinsError tt =
    Raise (PyExc JenkinsError msg None (Some not_found)).
Proof.
  apply (safe_request_generic_wraps
           (fun _ : unit => @Raise pyexc Z not_found) JenkinsError tt).
  intros ex [= <-] _. by eexists.
Defined.

(** ** Constructing a source *)

Lemma setdefault_lookup key default' kwargs :
  setdefault key default' kwargs !! key =
  Some (default default' (kwargs !! key)).
Proof.
  unfold setdefault. destruct (kwargs !! key) eqn:H; simpl; [done|].
  by rewrite lookup_insert_eq.
Qed.

Lemma setdefault_lookup_ne key key' default' kwargs :
  key ≠ key' -> setdefault key default' kwargs !! key' = kwargs !! key'.
Proof.
  intros Hne. unfold setdefault. destruct (kwargs !! key); [done|].
  by rewrite lookup_insert_ne.
Qed.

Lemma setdefault_subseteq key default' (kwargs : gmap string pyval) :
  kwargs ⊆ setdefault key default' kwargs.
Proof.
  unfold setdefault. destruct (kwargs !! key) eqn:H; [done|].
  by apply insert_subseteq.
Qed.

(** C10. A source constructed without [enabled] or [priority] is enabled
    and has priority 0; values given for them, and every other keyword
    argument, are kept; so a source is valid for an attribute it has
    unless it was given a false [enabled]. *)
Theorem Source_init_defaults (methods : gmap string (option speed_table))
    (name driver : string) (kwargs : gmap string pyval) :
  getattr (Source___init__ methods name driver kwargs) "enabled" =
    Some (AttrValue (default (VBool true) (kwargs !! "enabled"))) ∧
  getattr (Source___init__ methods name driver kwargs) "priority" =
    Some (AttrValue (default (VInt 0) (kwargs !! "priority"))) ∧
  kwargs ⊆ source_kwargs (Source___init__ methods name driver kwargs) ∧
  forall attr,
    is_source_valid (Source___init__ methods name driver kwargs) attr =
    Return (truthy (default (VBool true) (kwargs !! "enabled")) &&
            hasattr (Source___init__ methods name driver kwargs) attr).
Proof.
  assert (Henabled :
    getattr (Source___init__ methods name driver kwargs) "enabled" =
    Some (AttrValue (default (VBool true) (kwargs !! "enabled")))).
  { unfold getattr, Source___init__; simpl.
    rewrite setdefault_lookup_ne by done. by rewrite setdefault_lookup. }
  repeat split.
  - done.
  - unfold getattr, Source___init__; simpl.
    rewrite setdefault_lookup. by rewrite setdefault_lookup_ne.
  - unfold Source___init__; simpl.
    etrans; apply setdefault_subseteq.
  - intros attr. unfold is_source_valid. rewrite Henabled. simpl.
    destruct (truthy (default (VBool true) (kwargs !! "enabled"))); simpl;
      [|done].
    by destruct (hasattr _ attr).
Qed.

Example default_source_is_enabled :
  getattr (Source___init__ ∅ "jenkins" "jenkins" ∅) "enabled" =
    Some (AttrValue (VBool true)) ∧
  getattr (Source___init__ ∅ "jenkins" "jenkins" ∅) "priority" =
    Some (AttrValue (VInt 0)) ∧
  is_source_valid source_X "get_builds" = Return true.
Proof. repeat split; reflexivity. Qed.

Example disabled_source_is_not_valid :
  is_source_valid
    (Source___init__ (one_method "get_builds" {[ "base" := 1 ]})
                     "X" "jenkins" {[ "enabled" := VBool false ]})
    "get_builds" = Return false.
Proof. reflexivity. Qed.

(** * Further properties of the code *)

(** ** Lookups after adding a child *)

Section add_child_lookup.
Context {V : Type} (key : V -> string) (merge : V -> V -> V).
Implicit Types (d o : dict V) (k : string) (v : V).

Lemma add_child_get d v k :
  dict_get k (add_child key merge d v) =
  if decide (k = key v)
  then Some match dict_get (key v) d with
            | Some existing => merge existing v
            | None => v
            end
  else dict_get k d.
Proof.
  case_decide as Hk.
  - subst k. unfold add_child.
    destruct (dict_get (key v) d); apply dict_get_set_eq.
  - by apply add_child_get_ne.
Qed.

Lemma keyed_by_fresh d k :
  keyed_by key d = true -> forall v, (k, v) ∈ d -> k = key v.
Proof. intros Hwf v Hin. by destruct (keyed_by_get key k v d Hwf Hin). Qed.

Lemma keyed_by_lookup d k v :
  keyed_by key d = true -> dict_get k d = Some v -> k = key v.
Proof.
  induction d as [|[k' v'] d IH]; simpl; [done|].
  rewrite !andb_true_iff, bool_decide_eq_true. intros [[Hk _] Hwf].
  case_decide; [intros; by simplify_eq | by apply IH].
Qed.

Lemma keyed_by_set d k v :
  keyed_by key d = true -> k = key v -> keyed_by key (dict_set k v d) = true.
Proof.
  intros Hwf ->. induction d as [|[k' v'] d IH]; simpl.
  - by rewrite bool_decide_eq_true_2.
  - simpl in Hwf. rewrite !andb_true_iff, bool_decide_eq_true in Hwf.
    destruct Hwf as [[-> Hfresh] Hwf]. case_decide as Hk; simpl.
    + rewrite Hk in *. by rewrite bool_decide_eq_true_2, Hfresh, Hwf.
    + rewrite bool_decide_eq_true_2, IH by done.
      rewrite andb_true_r. simpl. rewrite negb_true_iff in *.
      unfold dict_contains in *. rewrite dict_get_set_ne by done.
      by rewrite Hfresh.
Qed.

Lemma add_child_keyed d v :
  (forall e, key (merge e v) = key e) ->
  keyed_by key d = true -> keyed_by key (add_child key merge d v) = true.
Proof.
  intros Hkey Hwf. unfold add_child.
  destruct (dict_get (key v) d) as [e|] eqn:He.
  - apply keyed_by_set; [done|]. rewrite Hkey.
    by apply (keyed_by_lookup d).
  - by apply keyed_by_set.
Qed.

Lemma add_children_keyed d vs :
  (forall e v, v ∈ vs -> key (merge e v) = key e) ->
  keyed_by key d = true -> keyed_by key (add_children key merge d vs) = true.
Proof.
  unfold add_children. revert d.
  induction vs as [|v vs IH]; intros d Hkey Hwf; simpl; [done|].
  apply IH.
  - intros e w Hw. apply Hkey. by right.
  - apply add_child_keyed; [|done]. intros e. apply Hkey. by left.
Qed.

(** The values of a collection after adding a child: the child itself or
    its merge into the one stored, and the values stored under the other
    keys. *)
Lemma add_child_values (P : V -> Prop) d v :
  (forall e, P e -> P (merge e v)) -> P v ->
  Forall P (dict_values d) -> Forall P (dict_values (add_child key merge d v)).
Proof.
  intros Hmerge Hv. unfold add_child, dict_values.
  induction d as [|[k' v'] d IH]; simpl.
  - intros _. by repeat constructor.
  - intros [Hv' Hd]%Forall_cons. specialize (IH Hd).
    case_decide as Hk; simpl.
    + constructor; [by apply Hmerge|done].
    + destruct (dict_get (key v) d) as [e|] eqn:He; simpl;
        rewrite ?decide_False by done; by constructor.
Qed.

Lemma add_children_values (P : V -> Prop) d vs :
  (forall e v, v ∈ vs -> P e -> P (merge e v)) -> Forall P vs ->
  Forall P (dict_values d) ->
  Forall P (dict_values (add_children key merge d vs)).
Proof.
  unfold add_children. revert d.
  induction vs as [|v vs IH]; intros d Hmerge Hvs Hd; simpl; [done|].
  apply Forall_cons in Hvs as [Hv Hvs]. apply IH; [| done |].
  - intros e w Hw. apply Hmerge. by right.
  - apply add_child_values; [|done..]. intros e. apply Hmerge. by left.
Qed.

(** Merging a keyed collection [o] into [d]: the lookups are those of a
    union that merges what both sides have, and the keys are those of [d]
    followed by the new keys of [o], each in its order. *)
Lemma add_children_lookup d o k :
  keyed_by key o = true ->
  dict_get k (add_children key merge d (dict_values o)) =
  match dict_get k d, dict_get k o with
  | Some e, Some v => Some (merge e v)
  | Some e, None => Some e
  | None, o' => o'
  end.
Proof.
  unfold add_children, dict_values. revert d.
  induction o as [|[k' v'] o IH]; intros d; simpl.
  - intros _. by destruct (dict_get k d).
  - rewrite !andb_true_iff, bool_decide_eq_true, negb_true_iff.
    intros [[-> Hfresh] Hwf]. rewrite IH by done.
    rewrite add_child_get. unfold dict_contains in Hfresh.
    case_decide as Hk.
    + subst k. destruct (dict_get (key v') o); [done|].
      by destruct (dict_get (key v') d).
    + done.
Qed.

Lemma list_difference_snoc (l ks : list string) x :
  x ∉ l -> list_difference l (ks ++ [x])%list = list_difference l ks.
Proof.
  induction l as [|y l IH]; simpl; [done|].
  intros [Hy Hl]%not_elem_of_cons.
  destruct (decide_rel elem_of y ks) as [Hin|Hin];
    destruct (decide_rel elem_of y (ks ++ [x])%list) as [Hin'|Hin'].
  - by apply IH.
  - exfalso. apply Hin', elem_of_app. by left.
  - exfalso. apply elem_of_app in Hin' as [?|?%list_elem_of_singleton]; auto.
  - f_equal. by apply IH.
Qed.

Lemma add_children_keys_order d o :
  keyed_by key o = true ->
  dict_keys (add_children key merge d (dict_values o)) =
  (dict_keys d ++ list_difference (dict_keys o) (dict_keys d))%list.
Proof.
  unfold add_children, dict_values. revert d.
  induction o as [|[k' v'] o IH]; intros d; simpl.
  - intros _. by rewrite app_nil_r.
  - rewrite !andb_true_iff, bool_decide_eq_true, negb_true_iff.
    intros [[-> Hfresh] Hwf]. rewrite IH by done.
    assert (Hnew : key v' ∉ dict_keys o).
    { apply dict_get_None. unfold dict_contains in Hfresh.
      by destruct (dict_get (key v') o). }
    unfold add_child.
    destruct (decide_rel elem_of (key v') (dict_keys d)) as [Hin|Hin].
    + apply dict_get_is_Some in Hin as [e He]. rewrite He.
      by rewrite dict_keys_set_present by eauto.
    + apply dict_get_None in Hin. rewrite Hin.
      rewrite dict_keys_set_absent by done.
      rewrite <- app_assoc. simpl. do 2 f_equal.
      by apply list_difference_snoc.
Qed.
End add_child_lookup.

(** ** Composing merges *)

Section add_children_assoc.
Context {V : Type} (key : V -> string) (merge : V -> V -> V).
Implicit Types (d e a b : dict V) (k : string) (v : V).

Lemma dict_get_values d k v : dict_get k d = Some v -> v ∈ dict_values d.
Proof.
  unfold dict_values. induction d as [|[k' v'] d IH]; simpl; [done|].
  case_decide; [intros [= ->]; by left | intros Hget; right; by apply IH].
Qed.

Lemma dict_ext d1 d2 :
  NoDup (dict_keys d1) -> dict_keys d1 = dict_keys d2 ->
  (forall k, dict_get k d1 = dict_get k d2) -> d1 = d2.
Proof.
  revert d2. induction d1 as [|[k1 v1] d1 IH]; intros [|[k2 v2] d2];
    try done.
  unfold dict_keys. rewrite !fmap_cons. simpl.
  intros [Hfresh Hnodup]%NoDup_cons [= <- Hkeys] Hget.
  pose proof (Hget k1) as Hk1. simpl in Hk1.
  rewrite !decide_True in Hk1 by done.
  simplify_eq. f_equal. apply IH; [done..|].
  intros k. specialize (Hget k). simpl in Hget.
  destruct (decide (k = k1)) as [->|Hne]; [|done].
  rewrite (proj2 (dict_get_None k1 d1)) by done.
  symmetry. apply dict_get_None. unfold dict_keys. by rewrite <- Hkeys.
Qed.

Lemma list_difference_app (l1 l2 ks : list string) :
  list_difference (l1 ++ l2) ks =
  (list_difference l1 ks ++ list_difference l2 ks)%list.
Proof.
  induction l1 as [|x l1 IH]; simpl; [done|].
  destruct (decide_rel elem_of x ks); simpl; by rewrite IH.
Qed.

Lemma list_difference_difference (l ka ke : list string) :
  list_difference (list_difference l ka) ke =
  list_difference l (ke ++ list_difference ka ke)%list.
Proof.
  induction l as [|x l IH]; simpl; [done|].
  assert (Hx : x ∈ (ke ++ list_difference ka ke)%list <-> x ∈ ka ∨ x ∈ ke).
  { rewrite elem_of_app, list_elem_of_difference.
    destruct (decide (x ∈ ke)); tauto. }
  destruct (decide_rel elem_of x ka) as [Ha|Ha];
    destruct (decide_rel elem_of x (ke ++ list_difference ka ke)%list)
      as [Hr|Hr]; simpl.
  - apply IH.
  - exfalso. apply Hr, Hx. by left.
  - destruct (decide_rel elem_of x ke) as [He|He]; [apply IH|].
    exfalso. apply Hx in Hr as [?|?]; done.
  - destruct (decide_rel elem_of x ke) as [He|He].
    + exfalso. apply Hr, Hx. by right.
    + f_equal. apply IH.
Qed.

Lemma add_children_assoc (P : V -> Prop) e a b :
  (forall x y, key (merge x y) = key x) ->
  (forall x y z, P x -> P y -> P z ->
     merge (merge x y) z = merge x (merge y z)) ->
  keyed_by key e = true -> keyed_by key a = true -> keyed_by key b = true ->
  Forall P (dict_values e) -> Forall P (dict_values a) ->
  Forall P (dict_values b) ->
  add_children key merge (add_children key merge e (dict_values a))
               (dict_values b) =
  add_children key merge e
               (dict_values (add_children key merge a (dict_values b))).
Proof.
  intros Hkey Hassoc He Ha Hb HPe HPa HPb.
  assert (Hab : keyed_by key (add_children key merge a (dict_values b)) = true)
    by (apply add_children_keyed; auto).
  apply dict_ext.
  - apply (keyed_by_NoDup key). repeat apply add_children_keyed; auto.
  - rewrite !(add_children_keys_order key merge) by done.
    rewrite list_difference_app, list_difference_difference.
    by rewrite <- app_assoc.
  - intros k. rewrite !(add_children_lookup key merge) by done.
    destruct (dict_get k e) as [x|] eqn:Hx;
      destruct (dict_get k a) as [y|] eqn:Hy;
      destruct (dict_get k b) as [z|] eqn:Hz; try done.
    rewrite Forall_forall in HPe, HPa, HPb.
    f_equal. apply Hassoc; [apply HPe|apply HPa|apply HPb];
      by eapply dict_get_values.
Qed.
End add_children_assoc.

Lemma fill_assoc {A} (falsy : A -> bool) (e a b : A) :
  (if falsy (if falsy e then a else e)
   then b else (if falsy e then a else e)) =
  (if falsy e then (if falsy a then b else a) else e).
Proof. destruct (falsy e) eqn:He; [done | by rewrite He]. Qed.

Lemma Test_merge_assoc e a b :
  Test_merge (Test_merge e a) b = Test_merge e (Test_merge a b).
Proof. unfold Test_merge; simpl. by rewrite !fill_assoc. Qed.

Lemma Build_merge_wf self other :
  Build_wf self = true -> Build_wf (Build_merge self other) = true.
Proof.
  unfold Build_wf. intros Hwf. rewrite Build_merge_eq; simpl.
  apply add_children_keyed; auto.
Qed.

Lemma Build_merge_assoc e a b :
  Build_wf e = true -> Build_wf a = true -> Build_wf b = true ->
  Build_merge (Build_merge e a) b = Build_merge e (Build_merge a b).
Proof.
  unfold Build_wf. intros He Ha Hb. rewrite !Build_merge_eq; simpl. f_equal.
  - apply fill_assoc.
  - apply (add_children_assoc test_name Test_merge (fun _ => True));
      try done; try (by apply Forall_true).
    intros; apply Test_merge_assoc.
Qed.

Lemma Job_wf_unfold j :
  Job_wf j = true <->
  keyed_by build_id (job_builds j) = true ∧
  Forall (fun b => Build_wf b = true) (dict_values (job_builds j)).
Proof.
  unfold Job_wf. rewrite andb_true_iff, forallb_forall, Forall_forall.
  split; intros [? H]; (split; [done|]); intros b Hb; apply H;
    by apply list_elem_of_In.
Qed.

Lemma Job_merge_wf self other :
  Job_wf self = true ->
  Forall (fun b => Build_wf b = true) (dict_values (job_builds other)) ->
  Job_wf (Job_merge self other) = true.
Proof.
  rewrite !Job_wf_unfold. intros [Hkeys Hbuilds] Hother.
  rewrite Job_merge_eq; simpl. split.
  - apply add_children_keyed; [|done]. intros e v _.
    by rewrite Build_merge_eq.
  - apply add_children_values; try done.
    intros e v _. apply Build_merge_wf.
Qed.

Lemma Job_merge_assoc e a b :
  Job_wf e = true -> Job_wf a = true -> Job_wf b = true ->
  Job_merge (Job_merge e a) b = Job_merge e (Job_merge a b).
Proof.
  rewrite !Job_wf_unfold. intros [He HPe] [Ha HPa] [Hb HPb].
  rewrite !Job_merge_eq; simpl. f_equal.
  - apply fill_assoc.
  - apply (add_children_assoc build_id Build_merge
             (fun x => Build_wf x = true)); try done.
    + intros x y. by rewrite Build_merge_eq.
    + intros x y z. apply Build_merge_assoc.
Qed.

Lemma Job_add_build_eq self build :
  Job_add_build self build =
  mkJob (job_name self) (job_url self)
        (add_child build_id Build_merge (job_builds self) build).
Proof. apply (Job_add_builds_fold [build]). Qed.

Lemma Build_add_test_eq self test :
  Build_add_test self test =
  mkBuild (build_id self) (build_status self) (build_duration self)
          (add_child test_name Test_merge (build_tests self) test).
Proof. apply (Build_add_tests_fold [test]). Qed.

(** X1. Looking a key up after [Job.add_build] gives, under the id of the
    build added, that build or its merge into the build stored before,
    and under every other key what was there before; the name and the URL
    of the job are untouched.  Likewise for [Build.add_test]. *)
Theorem lookup_after_add :
  (forall self build k,
     dict_get k (job_builds (Job_add_build self build)) =
       (if decide (k = build_id build)
        then Some match dict_get (build_id build) (job_builds self) with
                  | Some existing => Build_merge existing build
                  | None => build
                  end
        else dict_get k (job_builds self)) ∧
     job_name (Job_add_build self build) = job_name self ∧
     job_url (Job_add_build self build) = job_url self) ∧
  (forall self test k,
     dict_get k (build_tests (Build_add_test self test)) =
       (if decide (k = test_name test)
        then Some match dict_get (test_name test) (build_tests self) with
                  | Some existing => Test_merge existing test
                  | None => test
                  end
        else dict_get k (build_tests self)) ∧
     build_id (Build_add_test self test) = build_id self ∧
     build_status (Build_add_test self test) = build_status self ∧
     build_duration (Build_add_test self test) = build_duration self).
Proof.
  split.
  - intros self build k. rewrite Job_add_build_eq. simpl.
    by rewrite add_child_get.
  - intros self test k. rewrite Build_add_test_eq. simpl.
    by rewrite add_child_get.
Qed.

(** X2. Merging a job whose builds are keyed by their ids acts on lookups
    as a union: a build both jobs have is the merge of the two, a build
    one of them has is that build.  Likewise for the tests of two builds. *)
Theorem lookup_after_merge (other_job : Job) (other_build : Build) :
  keyed_by build_id (job_builds other_job) = true ->
  keyed_by test_name (build_tests other_build) = true ->
  (forall self k,
     dict_get k (job_builds (Job_merge self other_job)) =
     match dict_get k (job_builds self),
           dict_get k (job_builds other_job) with
     | Some existing, Some incoming => Some (Build_merge existing incoming)
     | Some existing, None => Some existing
     | None, incoming => incoming
     end) ∧
  (forall self k,
     dict_get k (build_tests (Build_merge self other_build)) =
     match dict_get k (build_tests self),
           dict_get k (build_tests other_build) with
     | Some existing, Some incoming => Some (Test_merge existing incoming)
     | Some existing, None => Some existing
     | None, incoming => incoming
     end).
Proof.
  intros Hjob Hbuild. split; intros self k.
  - rewrite Job_merge_eq. simpl. by apply add_children_lookup.
  - rewrite Build_merge_eq. simpl. by apply add_children_lookup.
Qed.

Lemma lookup_after_merge_witness :
  dict_get "1" (job_builds (Job_merge known_job reported_job)) =
    Some (mkBuild "1" (Some "SUCCESS") None []) ∧
  dict_get "2" (job_builds (Job_merge known_job reported_job)) =
    Some (mkBuild "2" (Some "FAILURE") None []).
Proof.
  split.
  - apply (lookup_after_merge reported_job build_with_test);
      reflexivity.
  - apply (lookup_after_merge reported_job build_with_test);
      reflexivity.
Defined.

(** X3. A merge keeps the keys of the receiver in their order and appends
    the keys only the incoming side has, in the order of the incoming
    side. *)
Theorem keys_after_merge (other_job : Job) (other_build : Build) :
  keyed_by build_id (job_builds other_job) = true ->
  keyed_by test_name (build_tests other_build) = true ->
  (forall self,
     dict_keys (job_builds (Job_merge self other_job)) =
     (dict_keys (job_builds self) ++
      list_difference (dict_keys (job_builds other_job))
                      (dict_keys (job_builds self)))%list) ∧
  (forall self,
     dict_keys (build_tests (Build_merge self other_build)) =
     (dict_keys (build_tests self) ++
      list_difference (dict_keys (build_tests other_build))
                      (dict_keys (build_tests self)))%list).
Proof.
  intros Hjob Hbuild. split; intros self.
  - rewrite Job_merge_eq. simpl. by apply add_children_keys_order.
  - rewrite Build_merge_eq. simpl. by apply add_children_keys_order.
Qed.

Lemma keys_after_merge_witness :
  dict_keys (job_builds (Job_merge known_job reported_job)) = ["1"; "2"].
Proof.
  apply (keys_after_merge reported_job build_with_test); reflexivity.
Defined.

(** X4. Being keyed by identity is kept by every operation of the model:
    by [Build.add_test] and [Build.merge] whatever is added or merged, and
    by [Job.add_build] and [Job.merge] when the builds that come in are
    themselves keyed by identity. *)
Theorem merge_keeps_collections_keyed :
  (forall self test,
     Build_wf self = true -> Build_wf (Build_add_test self test) = true) ∧
  (forall self other,
     Build_wf self = true -> Build_wf (Build_merge self other) = true) ∧
  (forall self build,
     Job_wf self = true -> Build_wf build = true ->
     Job_wf (Job_add_build self build) = true) ∧
  (forall self other,
     Job_wf self = true ->
     forallb Build_wf (dict_values (job_builds other)) = true ->
     Job_wf (Job_merge self other) = true).
Proof.
  repeat split.
  - intros self test Hwf. unfold Build_wf in *.
    rewrite Build_add_test_eq. simpl. by apply add_child_keyed.
  - intros self other. apply Build_merge_wf.
  - intros self build [Hkeys Hbuilds]%Job_wf_unfold Hbuild.
    apply Job_wf_unfold. rewrite Job_add_build_eq. simpl. split.
    + apply add_child_keyed; [|done]. intros e. by rewrite Build_merge_eq.
    + apply add_child_values; try done. intros e. apply Build_merge_wf.
  - intros self other Hself Hother. apply Job_merge_wf; [done|].
    rewrite forallb_forall in Hother. apply Forall_forall.
    intros b Hb. by apply Hother, list_elem_of_In.
Qed.

Lemma merge_keeps_collections_keyed_witness :
  Job_wf (Job_merge known_job rerun_job) = true.
Proof.
  apply (proj2 (proj2 (proj2 merge_keeps_collections_keyed))).
  - vm_compute. reflexivity.
  - vm_compute. reflexivity.
Defined.

(** X5. Merging is associative on jobs and on builds keyed by identity:
    merging [a] and then [b] into [e] gives the same tree as merging into
    [e] the merge of [b] into [a]. *)
Theorem merge_associative (e a b : Job) (x y z : Build) :
  Job_wf e = true -> Job_wf a = true -> Job_wf b = true ->
  Build_wf x = true -> Build_wf y = true -> Build_wf z = true ->
  Job_merge (Job_merge e a) b = Job_merge e (Job_merge a b) ∧
  Build_merge (Build_merge x y) z = Build_merge x (Build_merge y z).
Proof.
  intros. split; [by apply Job_merge_assoc | by apply Build_merge_assoc].
Qed.

Lemma merge_associative_witness :
  Job_merge (Job_merge known_job reported_job) rerun_job =
    Job_merge known_job (Job_merge reported_job rerun_job) ∧
  Build_merge (Build_merge build_with_status build_with_test)
              build_with_result =
    Build_merge build_with_status
                (Build_merge build_with_test build_with_result).
Proof.
  apply (merge_associative known_job reported_job rerun_job
           build_with_status build_with_test build_with_result);
    reflexivity.
Defined.

(** X6. A merge never changes the identity of the receiver, and
    [Build.merge] never takes the duration of the incoming build, not even
    when the receiver has none. *)
Theorem merge_keeps_identity :
  (forall self other, job_name (Job_merge self other) = job_name self) ∧
  (forall self other,
     build_id (Build_merge self other) = build_id self ∧
     build_duration (Build_merge self other) = build_duration self).
Proof.
  split; intros self other.
  - by rewrite Job_merge_eq.
  - by rewrite Build_merge_eq.
Qed.

(** ** Populating a system *)





(** ** Attaching sources and resolving *)





(** ** What the resolver does not depend on *)

Lemma select_loop_candidates func_name args sources st :
  select_loop func_name args (candidates func_name sources) st =
  select_loop func_name args sources st.
Proof.
  revert st. induction sources as [|s rest IH]; intros st; simpl; [done|].
  unfold passed_over, select_step.
  destruct (is_source_valid s func_name) as [[]|e] eqn:Hvalid; simpl;
    rewrite ?Hvalid; simpl; try done.
  - unfold select_step. rewrite Hvalid. simpl.
    destruct (get_source_speed_score s func_name args) as [v|]; simpl;
      [|done].
    destruct (v >? st.1); apply IH.
  - unfold select_step. by rewrite Hvalid.
Qed.

(** X9. Sources that are disabled or do not have the requested function
    do not influence the resolution: the outcome is the one for the list
    without them. *)
Theorem get_source_method_passes_over
    (system_name func_name : string) (args : list string)
    (sources : list Source) :
  get_source_method system_name (candidates func_name sources)
                    func_name args =
  get_source_method system_name sources func_name args.
Proof.
  unfold get_source_method. by rewrite select_loop_candidates.
Qed.

Lemma extra_scores_permutation (speed_index : speed_table) args args' :
  args ≡ₚ args' ->
  extra_scores speed_index args = extra_scores speed_index args'.
Proof.
  unfold extra_scores.
  induction 1 as [|x l l' _ IH|x y l|l l' l'' _ IH1 _ IH2]; simpl;
    [done|by rewrite IH|lia|by rewrite IH1].
Qed.

Lemma get_source_speed_score_permutation source func_name args args' :
  args ≡ₚ args' ->
  get_source_speed_score source func_name args =
  get_source_speed_score source func_name args'.
Proof.
  intros Hperm. unfold get_source_speed_score.
  destruct (getattr source func_name) as [[v|[speed_index|]]|]; try done.
  by rewrite !speed_fold, (extra_scores_permutation _ _ _ Hperm).
Qed.

(** X10. The order in which the user's flags are listed does not matter:
    the score of a source and the outcome of the resolution are the same
    for every reordering of the arguments. *)
Theorem get_source_method_permutation
    (system_name func_name : string) (args args' : list string)
    (sources : list Source) :
  args ≡ₚ args' ->
  (forall source,
     get_source_speed_score source func_name args =
     get_source_speed_score source func_name args') ∧
  get_source_method system_name sources func_name args =
  get_source_method system_name sources func_name args'.
Proof.
  intros Hperm. split.
  - intros source. by apply get_source_speed_score_permutation.
  - unfold get_source_method. f_equal. generalize (0, @None bound_method).
    induction sources as [|s rest IH]; intros st; simpl; [done|].
    unfold select_step.
    rewrite (get_source_speed_score_permutation _ _ _ _ Hperm).
    destruct (is_source_valid s func_name) as [[]|]; simpl; try done.
    destruct (get_source_speed_score s func_name args') as [v|]; simpl;
      [|done].
    destruct (v >? st.1); apply IH.
Qed.

Lemma get_source_method_permutation_witness :
  get_source_method "ci" [source_X; source_Y] "get_builds"
                    ["last_build"; "builds"] =
  get_source_method "ci" [source_X; source_Y] "get_builds"
                    ["builds"; "last_build"].
Proof.
  apply (get_source_method_permutation "ci" "get_builds"
           ["last_build"; "builds"] ["builds"; "last_build"]).
  apply perm_swap.
Defined.

(** ** What validation does to the environments *)

Lemma List_filter_sublist {A} (f : A -> bool) (l : list A) :
  List.filter f l `sublist_of` l.
Proof.
  induction l as [|x l IH]; simpl; [done|].
  destruct (f x); [by apply sublist_skip | by apply sublist_cons].
Qed.

Lemma List_filter_all {A} (f : A -> bool) (l : list A) :
  (forall x, f x = true) -> List.filter f l = l.
Proof.
  intros Hall. induction l as [|x l IH]; simpl; [done|].
  by rewrite Hall, IH.
Qed.

Lemma surviving_prunes args env env' :
  surviving args env = Some env' ->
  env_name env' = env_name env ∧
  env_systems env' `sublist_of` env_systems env ∧
  env_systems env' ≠ [].
Proof.
  unfold surviving. destruct (_consistent_environment args env); [|done].
  pose proof (List_filter_sublist (_consistent_system args) (env_systems env))
    as Hsub.
  destruct (List.filter (_consistent_system args) (env_systems env));
    [done|].
  by intros [= <-].
Qed.

Lemma validate_environments_after args environments :
  (validate_environments args environments).2 = environments ∨
  (validate_environments args environments).2 =
    (fun env => default env (surviving args env)) <$> environments.
Proof.
  unfold validate_environments.
  destruct (_check_input_environments args (env_name <$> environments)
              "env_name" InvalidEnvironment); [|by left].
  destruct (_check_input_environments args _ "systems" InvalidSystem);
    [|by left].
  right. rewrite <- filter_environments_after.
  by destruct (user_systems (filter_environments args environments)).
Qed.

(** X11. Validation never adds, removes, renames or reorders the
    environments it is given: every environment is left with its name and
    with a sublist of the systems it had. *)
Theorem validate_environments_only_prunes
    (args : ci_args) (environments : list Environment) :
  Forall2 (fun env env' =>
             env_name env' = env_name env ∧
             env_systems env' `sublist_of` env_systems env)
          environments (validate_environments args environments).2.
Proof.
  destruct (validate_environments_after args environments) as [-> | ->].
  - apply Forall_Forall2_diag, Forall_forall. intros env _.
    split; reflexivity.
  - apply Forall2_fmap_r, Forall_Forall2_diag, Forall_forall. intros env _.
    unfold compose. destruct (surviving args env) as [env'|] eqn:Hsurv; simpl;
      [|split; reflexivity].
    by destruct (surviving_prunes _ _ _ Hsurv) as (? & ? & _).
Qed.

Lemma filter_environments_nothing args environments :
  user_systems (filter_environments args environments) = [] ->
  environments_after (filter_environments args environments) = environments.
Proof.
  induction environments as [|env rest IH]; simpl; [done|].
  destruct (_consistent_environment args env); simpl;
    [|intros; f_equal; by apply IH].
  destruct (List.filter (_consistent_system args) (env_systems env));
    simpl; [intros; f_equal; by apply IH | done].
Qed.

(** X12. Pruning happens only when validation succeeds: whichever error
    [validate_environments] raises, [NoValidSystem] included, every
    environment still has all its systems. *)
Theorem validate_environments_error_prunes_nothing
    (args : ci_args) (environments : list Environment) (e : exn) :
  (validate_environments args environments).1 = Raise e ->
  (validate_environments args environments).2 = environments.
Proof.
  unfold validate_environments.
  destruct (_check_input_environments args (env_name <$> environments)
              "env_name" InvalidEnvironment); [|done].
  destruct (_check_input_environments args _ "systems" InvalidSystem);
    [|done].
  destruct (user_systems (filter_environments args environments)) eqn:Hnone;
    [|done].
  intros _. by apply filter_environments_nothing.
Qed.

Lemma validate_environments_error_prunes_nothing_witness :
  (validate_environments request_source_Y [staging]).2 = [staging].
Proof.
  apply (validate_environments_error_prunes_nothing
           request_source_Y [staging] (NoValidSystem ["ci"])).
  reflexivity.
Defined.

Lemma filter_environments_consistent args environments :
  user_systems (filter_environments args environments) =
    concat (env_systems <$> user_envs (filter_environments args environments)) ∧
  user_envs (filter_environments args environments) `sublist_of`
    environments_after (filter_environments args environments) ∧
  Forall (fun env => env_systems env ≠ [])
         (user_envs (filter_environments args environments)).
Proof.
  induction environments as [|env rest (IHs & IHe & IHn)]; simpl; [done|].
  destruct (_consistent_environment args env); simpl;
    [|repeat split; [done|by apply sublist_cons|done]].
  destruct (List.filter (_consistent_system args) (env_systems env)) eqn:Hf;
    simpl; [repeat split; [done|by apply sublist_cons|done]|].
  repeat split.
  - by rewrite IHs.
  - by apply sublist_skip.
  - by constructor.
Qed.

(** X13. What a successful validation returns fits together: the systems
    returned are those of the environments returned, in order, there is
    at least one, no environment is returned without systems, and the
    environments returned are among the environments as validation
    leaves them. *)
Theorem validate_environments_result_consistent
    (args : ci_args) (environments envs : list Environment)
    (systems : list System) :
  (validate_environments args environments).1 = Return (envs, systems) ->
  systems = concat (env_systems <$> envs) ∧
  systems ≠ [] ∧
  Forall (fun env => env_systems env ≠ []) envs ∧
  envs `sublist_of` (validate_environments args environments).2.
Proof.
  unfold validate_environments.
  destruct (_check_input_environments args (env_name <$> environments)
              "env_name" InvalidEnvironment); [|done].
  destruct (_check_input_environments args _ "systems" InvalidSystem);
    [|done].
  destruct (filter_environments_consistent args environments)
    as (Hs & He & Hn).
  destruct (user_systems (filter_environments args environments)) eqn:Hsys;
    [done|]. simpl. intros [= <- <-]. by rewrite <- Hs.
Qed.

Lemma validate_environments_result_consistent_witness :
  env_systems staging = concat (env_systems <$> [staging]) ∧
  env_systems staging ≠ [] ∧
  Forall (fun env => env_systems env ≠ []) [staging] ∧
  [staging] `sublist_of`
    (validate_environments request_source_X [staging; empty_environment]).2.
Proof.
  apply (validate_environments_result_consistent
           request_source_X [staging; empty_environment]).
  reflexivity.
Defined.

Lemma filter_environments_unconstrained environments :
  filter_environments ∅ environments =
  mkFiltered environments (List.filter has_systems environments)
             (concat (env_systems <$> environments)).
Proof.
  induction environments as [|env rest IH]; simpl; [done|].
  rewrite IH. unfold _consistent_environment. rewrite lookup_empty. simpl.
  rewrite List_filter_all by done.
  unfold has_systems. destruct env as [name [|s l]]; simpl; done.
Qed.

(** X14. Without any argument nothing is pruned: the environments that
    have systems are returned as they are, with all their systems, and
    [NoValidSystem] is raised exactly when no system is configured. *)
Theorem validate_environments_unconstrained (environments : list Environment) :
  validate_environments ∅ environments =
  (match concat (env_systems <$> environments) with
   | [] => Raise (NoValidSystem (configured_systems environments))
   | systems => Return (List.filter has_systems environments, systems)
   end,
   environments).
Proof.
  unfold validate_environments, _check_input_environments.
  rewrite !lookup_empty, filter_environments_unconstrained. simpl.
  by destruct (concat (env_systems <$> environments)).
Qed.

(** ** Wrapped requests *)

Lemma isinstance_requests_error ex cls :
  cls ∈ requests_errors ->
  isinstance ex "requests.exceptions.SSLError" = false ->
  isinstance ex "requests.exceptions.ConnectionError" = false ->
  isinstance ex "requests.exceptions.HTTPError" = false ->
  isinstance ex cls = false.
Proof.
  unfold requests_errors. rewrite !elem_of_cons, elem_of_nil.
  intros [->|[->|[->|[]]]]; done.
Qed.

Lemma safe_request_generic_raises {A B} (request : A -> result pyexc B)
    custom_error args ex' cls :
  cls ∈ requests_errors -> cls ∉ custom_error ->
  safe_request_generic request custom_error args = Raise ex' ->
  isinstance ex' cls = false.
Proof.
  intros Hcls Hcustom.
  assert (Hwrapped : forall msg cause,
            isinstance (PyExc custom_error msg None cause) cls = false).
  { intros msg cause. by apply bool_decide_eq_false_2. }
  assert (Hattr : isinstance no_status_code cls = false).
  { clear -Hcls. unfold requests_errors in Hcls.
    rewrite !elem_of_cons, elem_of_nil in Hcls.
    destruct Hcls as [->|[->|[->|[]]]]; reflexivity. }
  destruct (request args) as [v|ex] eqn:Hrequest.
  - by rewrite (safe_request_generic_returns _ _ _ _ Hrequest).
  - rewrite (safe_request_generic_messages _ _ _ _ Hrequest).
    destruct (isinstance ex "requests.exceptions.SSLError") eqn:Hssl;
      [by intros [= <-]|].
    destruct (isinstance ex "requests.exceptions.ConnectionError") eqn:Hconn;
      [by intros [= <-]|].
    destruct (isinstance ex "requests.exceptions.HTTPError") eqn:Hhttp.
    { destruct (exc_status_code ex); by intros [= <-]. }
    destruct (isinstance ex "Exception"); intros [= <-]; [done|].
    by apply isinstance_requests_error.
Qed.

(** X15. Whatever the wrapped call does, what comes out of the wrapper is
    never an SSL, connection or HTTP error of requests, as long as the
    custom error class is not one itself. *)
Theorem safe_request_generic_hides_requests_errors {A B}
    (request : A -> result pyexc B) (custom_error : list string)
    (args : A) (ex' : pyexc) (cls : string) :
  cls ∈ requests_errors -> cls ∉ custom_error ->
  safe_request_generic request custom_error args = Raise ex' ->
  isinstance ex' cls = false.
Proof. apply safe_request_generic_raises. Qed.


Lemma safe_request_generic_hides_requests_errors_witness :
  isinstance (PyExc JenkinsError "Got response 404 from target host." None
                    (Some not_found))
             "requests.exceptions.HTTPError" = false.
Proof.
  apply (safe_request_generic_hides_requests_errors
           failing_request JenkinsError tt).
  - unfold requests_errors. rewrite !elem_of_cons. auto.
  - eapply bool_decide_eq_false_1. reflexivity.
  - reflexivity.
Defined.



(** ** Reading the command line *)

(** The argument at [i + 2] is the item that follows item [i] of
    [arguments[1:]]. *)
Lemma argument_after (arguments : list string) i item rest :
  drop i (tail arguments) = item :: rest ->
  arguments !! (i + 2)%nat = head rest ∧
  drop (S i) (tail arguments) = rest.
Proof.
  intros Hdrop. destruct arguments as [|a0 all]; simpl in *.
  { by rewrite drop_nil in Hdrop. }
  split.
  - replace (i + 2)%nat with (S (i + 1)) by lia. simpl.
    rewrite <- (lookup_drop all i 1), Hdrop. by destruct rest.
  - replace (S i) with (i + 1)%nat by lia.
    by rewrite <- (drop_drop all 1 i), Hdrop.
Qed.

Lemma config_path_loop_scan arguments i items config_file_path :
  drop i (tail arguments) = items ->
  config_path_loop arguments i items config_file_path =
  config_path_scan items config_file_path.
Proof.
  revert i config_file_path.
  induction items as [|item rest IH]; intros i acc Hdrop; simpl; [done|].
  destruct (argument_after arguments i item rest Hdrop) as [-> Hrest].
  case_decide; [|by apply IH].
  destruct rest as [|value rest']; [done|]. by apply IH.
Qed.

Lemma config_log_loop_scan arguments i items config :
  drop i (tail arguments) = items ->
  config_log_loop arguments i items config = config_log_scan items config.
Proof.
  revert i config.
  induction items as [|item rest IH]; intros i acc Hdrop; simpl; [done|].
  destruct (argument_after arguments i item rest Hdrop) as [-> Hrest].
  repeat case_decide; try (by apply IH);
    (destruct rest as [|value rest']; [done|]; by apply IH).
Qed.

Lemma config_path_scan_absent items config_file_path :
  "--config" ∉ items ->
  config_path_scan items config_file_path = Return config_file_path.
Proof.
  induction items as [|item rest IH]; simpl; [done|].
  intros [Hitem Hrest]%not_elem_of_cons.
  rewrite decide_False by done. by apply IH.
Qed.

Lemma config_path_scan_last before config_file_path :
  config_path_scan (before ++ ["--config"]) config_file_path =
  Raise IndexError.
Proof.
  revert config_file_path.
  induction before as [|item rest IH]; intros acc; simpl; [done|].
  case_decide; [|apply IH].
  destruct rest; apply IH.
Qed.

Lemma config_path_scan_value before value after config_file_path :
  "--config" ∉ value :: after ->
  config_path_scan (before ++ "--config" :: value :: after) config_file_path =
  Return (Some value).
Proof.
  intros Hlast. revert config_file_path.
  induction before as [|item rest IH]; intros acc.
  - change (config_path_scan (value :: after) (Some value) =
            Return (Some value)).
    by apply config_path_scan_absent.
  - simpl. case_decide; [|apply IH].
    destruct rest; apply IH.
Qed.

(** X17. [get_config_file_path] returns [None] when [--config] is not
    among the arguments after the program name, the argument that follows
    the last [--config] when there is one, and fails with [IndexError]
    when [--config] is the last argument. *)
Theorem get_config_file_path_cases (arguments : list string) :
  ("--config" ∉ tail arguments ->
   get_config_file_path arguments = Return None) ∧
  (forall before,
     tail arguments = (before ++ ["--config"])%list ->
     get_config_file_path arguments = Raise IndexError) ∧
  (forall before value after,
     tail arguments = (before ++ "--config" :: value :: after)%list ->
     "--config" ∉ value :: after ->
     get_config_file_path arguments = Return (Some value)).
Proof.
  unfold get_config_file_path.
  rewrite (config_path_loop_scan arguments 0 (tail arguments)) by done.
  repeat split.
  - apply config_path_scan_absent.
  - intros before ->. apply config_path_scan_last.
  - intros before value after ->. apply config_path_scan_value.
Qed.

Lemma get_config_file_path_cases_witness :
  get_config_file_path
    ["cibyl"; "--config"; "old.yaml"; "--debug"; "--config"; "new.yaml"] =
  Return (Some "new.yaml").
Proof.
  apply (get_config_file_path_cases
           ["cibyl"; "--config"; "old.yaml"; "--debug"; "--config";
            "new.yaml"])
    with (before := ["--config"; "old.yaml"; "--debug"]) (after := []).
  - reflexivity.
  - eapply bool_decide_eq_false_1. reflexivity.
Defined.

Lemma config_log_scan_raises items config :
  config_log_scan items config = Raise IndexError <->
  last items = Some "--log-file" ∨ last items = Some "--log-mode".
Proof.
  revert config. induction items as [|item rest IH]; intros config.
  - simpl. split; [done|by intros [?|?]].
  - assert (Hlast : rest ≠ [] -> last (item :: rest) = last rest)
      by (by destruct rest).
    simpl config_log_scan. repeat case_decide; subst.
    + destruct rest as [|value rest']; [split; [by left|done]|].
      rewrite Hlast by done. apply IH.
    + destruct rest as [|value rest']; [split; [by right|done]|].
      rewrite Hlast by done. apply IH.
    + destruct rest as [|value rest'];
        [split; [done|by intros [[= ?]|[= ?]]]|].
      rewrite Hlast by done. apply IH.
    + destruct rest as [|value rest'];
        [split; [done|by intros [[= ?]|[= ?]]]|].
      rewrite Hlast by done. apply IH.
Qed.

Lemma config_log_scan_total items config :
  (exists config', config_log_scan items config = Return config') ∨
  config_log_scan items config = Raise IndexError.
Proof.
  destruct (config_log_scan items config) as [config'|[]]; eauto.
Qed.

Lemma config_log_scan_debug items config config' :
  config_log_scan items config = Return config' ->
  debug config' = debug config || bool_decide ("--debug" ∈ items).
Proof.
  revert config. induction items as [|item rest IH]; intros config.
  - simpl. intros [= <-]. by rewrite orb_false_r.
  - assert (Hnot : item ≠ "--debug" ->
              bool_decide ("--debug" ∈ item :: rest) =
              bool_decide ("--debug" ∈ rest)).
    { intros Hne. apply bool_decide_ext. rewrite elem_of_cons.
      split; [intros [?|?]; [congruence|done] | by right]. }
    simpl config_log_scan.
    destruct (decide (item = "--log-file")) as [->|Hfile].
    { destruct rest as [|value rest']; [done|].
      intros ->%IH. by rewrite Hnot. }
    destruct (decide (item = "--log-mode")) as [->|Hmode].
    { destruct rest as [|value rest']; [done|].
      intros ->%IH. by rewrite Hnot. }
    destruct (decide (item = "--debug")) as [->|Hdebug].
    + intros ->%IH.
      rewrite (bool_decide_eq_true_2 ("--debug" ∈ "--debug" :: rest))
        by (by left).
      rewrite orb_true_r. reflexivity.
    + intros ->%IH. by rewrite Hnot.
Qed.

Lemma config_log_scan_log_file_kept items config config' :
  "--log-file" ∉ items ->
  config_log_scan items config = Return config' ->
  log_file config' = log_file config.
Proof.
  revert config. induction items as [|item rest IH]; intros config.
  - simpl. by intros _ [= <-].
  - intros [Hitem Hrest]%not_elem_of_cons. simpl config_log_scan.
    repeat case_decide; subst; try done.
    + destruct rest as [|value rest']; [done|]. by intros ->%IH.
    + by intros ->%IH.
    + by intros ->%IH.
Qed.

Lemma config_log_scan_log_mode_kept items config config' :
  "--log-mode" ∉ items ->
  config_log_scan items config = Return config' ->
  log_mode config' = log_mode config.
Proof.
  revert config. induction items as [|item rest IH]; intros config.
  - simpl. by intros _ [= <-].
  - intros [Hitem Hrest]%not_elem_of_cons. simpl config_log_scan.
    repeat case_decide; subst; try done.
    + destruct rest as [|value rest']; [done|]. by intros ->%IH.
    + by intros ->%IH.
    + by intros ->%IH.
Qed.

Lemma config_log_scan_log_file before value after config config' :
  "--log-file" ∉ value :: after ->
  config_log_scan (before ++ "--log-file" :: value :: after) config =
    Return config' ->
  log_file config' = value.
Proof.
  intros Hlast. revert config.
  induction before as [|item rest IH]; intros config.
  - change (config_log_scan (value :: after)
              (mkLogConfig value (log_mode config) (debug config)) =
            Return config' -> log_file config' = value).
    intros H. by rewrite (config_log_scan_log_file_kept _ _ _ Hlast H).
  - simpl. repeat case_decide; try apply IH; destruct rest; apply IH.
Qed.

Lemma config_log_scan_log_mode before value after config config' :
  "--log-mode" ∉ value :: after ->
  config_log_scan (before ++ "--log-mode" :: value :: after) config =
    Return config' ->
  log_mode config' = value.
Proof.
  intros Hlast. revert config.
  induction before as [|item rest IH]; intros config.
  - change (config_log_scan (value :: after)
              (mkLogConfig (log_file config) value (debug config)) =
            Return config' -> log_mode config' = value).
    intros H. by rewrite (config_log_scan_log_mode_kept _ _ _ Hlast H).
  - simpl. repeat case_decide; try apply IH; destruct rest; apply IH.
Qed.

(** X18. [get_config_log] fails with [IndexError] exactly when the last
    argument is [--log-file] or [--log-mode].  Otherwise it returns the
    file and the mode that follow the last [--log-file] and the last
    [--log-mode], [cibyl_output.log] and [both] when the flag is not
    given, and debug is on exactly when [--debug] is among the arguments
    after the program name. *)
Theorem get_config_log_cases (arguments : list string) :
  (get_config_log arguments = Raise IndexError <->
   last (tail arguments) = Some "--log-file" ∨
   last (tail arguments) = Some "--log-mode") ∧
  (forall config,
     get_config_log arguments = Return config ->
     debug config = bool_decide ("--debug" ∈ tail arguments) ∧
     ("--log-file" ∉ tail arguments -> log_file config = "cibyl_output.log") ∧
     ("--log-mode" ∉ tail arguments -> log_mode config = "both") ∧
     (forall before value after,
        tail arguments = (before ++ "--log-file" :: value :: after)%list ->
        "--log-file" ∉ value :: after -> log_file config = value) ∧
     (forall before value after,
        tail arguments = (before ++ "--log-mode" :: value :: after)%list ->
        "--log-mode" ∉ value :: after -> log_mode config = value)).
Proof.
  unfold get_config_log.
  rewrite (config_log_loop_scan arguments 0 (tail arguments)) by done.
  split; [apply config_log_scan_raises|].
  intros config Hconfig. repeat split.
  - by rewrite (config_log_scan_debug _ _ _ Hconfig).
  - intros Hnone. by rewrite (config_log_scan_log_file_kept _ _ _ Hnone Hconfig).
  - intros Hnone. by rewrite (config_log_scan_log_mode_kept _ _ _ Hnone Hconfig).
  - intros before value after Htail Hlast. rewrite Htail in Hconfig.
    by apply (config_log_scan_log_file _ _ _ _ _ Hlast Hconfig).
  - intros before value after Htail Hlast. rewrite Htail in Hconfig.
    by apply (config_log_scan_log_mode _ _ _ _ _ Hlast Hconfig).
Qed.

Lemma get_config_log_cases_witness :
  debug (mkLogConfig "run.log" "both" true) =
    bool_decide ("--debug" ∈ tail ["cibyl"; "--log-file"; "run.log"; "--debug"]).
Proof.
  apply (get_config_log_cases ["cibyl"; "--log-file"; "run.log"; "--debug"]).
  reflexivity.
Defined.

(** ** Query templates *)





(** ** The jobs a source returns *)

Lemma fold_job_objects_keyed records d :
  keyed_by job_name d = true ->
  keyed_by job_name
    (fold_left (fun job_objects job =>
                  dict_set (record_name job)
                           (Job___init__ (record_name job) (record_url job))
                           job_objects) records d) = true.
Proof.
  revert d. induction records as [|r rest IH]; intros d Hd; simpl; [done|].
  apply IH. by apply keyed_by_set.
Qed.

Lemma fold_job_objects_wf records d :
  Forall (fun j => Job_wf j = true) (dict_values d) ->
  Forall (fun j => Job_wf j = true)
    (dict_values
       (fold_left (fun job_objects job =>
                     dict_set (record_name job)
                              (Job___init__ (record_name job) (record_url job))
                              job_objects) records d)).
Proof.
  revert d. induction records as [|r rest IH]; intros d Hd; simpl; [done|].
  apply IH. clear IH. unfold dict_values in *.
  induction d as [|[k v] d IHd]; simpl.
  - by repeat constructor.
  - apply Forall_cons in Hd as [Hv Hd]. case_decide; simpl.
    + by constructor.
    + constructor; [done|by apply IHd].
Qed.

Lemma fold_job_objects_lookup records d name :
  dict_get name
    (fold_left (fun job_objects job =>
                  dict_set (record_name job)
                           (Job___init__ (record_name job) (record_url job))
                           job_objects) records d) =
  match last (filter (fun r => record_name r = name) records) with
  | Some r => Some (Job___init__ (record_name r) (record_url r))
  | None => dict_get name d
  end.
Proof.
  revert d. induction records as [|r rest IH]; intros d; simpl; [done|].
  rewrite IH. rewrite filter_cons. case_decide as Hname.
  - destruct (filter (fun r => record_name r = name) rest) as [|r' l] eqn:Hf.
    + simpl. subst name. by rewrite dict_get_set_eq.
    + rewrite last_cons_cons.
      destruct (last (r' :: l)) eqn:Hlast; [done|].
      by apply last_None in Hlast.
  - destruct (last (filter (fun r => record_name r = name) rest)); [done|].
    by rewrite dict_get_set_ne.
Qed.

(** X20. The collection of jobs a source builds from the filtered records
    is keyed by name and each of its jobs is keyed by identity, so that
    it can be merged; under a name it holds a job with the URL of the
    last record of that name, and no builds. *)
Theorem job_objects_keyed (jobs_filtered : list job_record) :
  keyed_by job_name (job_objects jobs_filtered) = true ∧
  Forall (fun j => Job_wf j = true) (dict_values (job_objects jobs_filtered)) ∧
  forall name,
    dict_get name (job_objects jobs_filtered) =
    (fun r => mkJob name (record_url r) []) <$>
      last (filter (fun r => record_name r = name) jobs_filtered).
Proof.
  unfold job_objects. repeat split.
  - by apply fold_job_objects_keyed.
  - by apply fold_job_objects_wf.
  - intros name. rewrite fold_job_objects_lookup.
    destruct (last (filter (fun r => record_name r = name) jobs_filtered))
      as [r|] eqn:Hlast; [|done].
    simpl. unfold Job___init__. do 2 f_equal.
    apply last_Some_elem_of, list_elem_of_filter in Hlast. by destruct Hlast.
Qed.

(** ** Loading plugins *)

Lemma plugin_names_loop_scan arguments i items plugin_name :
  drop i (tail arguments) = items ->
  plugin_names_loop arguments i items plugin_name =
  plugin_names_scan items plugin_name.
Proof.
  revert i plugin_name.
  induction items as [|item rest IH]; intros i acc Hdrop; simpl; [done|].
  destruct (argument_after arguments i item rest Hdrop) as [-> Hrest].
  repeat case_decide; try (by apply IH);
    (destruct rest as [|value rest']; [done|]; by apply IH).
Qed.

Lemma flagged_cons item value rest :
  flagged (item :: value :: rest) =
  if plugin_flag item then value :: flagged (value :: rest)
  else flagged (value :: rest).
Proof. unfold flagged. simpl. by destruct (plugin_flag item). Qed.

Lemma plugin_flag_cases item :
  plugin_flag item =
  if decide (item = "--plugin") then true
  else if decide (item = "-p") then true else false.
Proof.
  unfold plugin_flag. repeat case_decide; subst; done.
Qed.

Lemma plugin_names_scan_flagged items plugin_name :
  plugin_names_scan items plugin_name =
  match last items with
  | Some item =>
      if plugin_flag item then Raise index_error
      else Return (plugin_name ++ flagged items)%list
  | None => Return plugin_name
  end.
Proof.
  revert plugin_name. induction items as [|item rest IH]; intros acc.
  - done.
  - destruct rest as [|value rest'].
    + simpl. rewrite plugin_flag_cases.
      repeat case_decide; try done. by rewrite app_nil_r.
    + rewrite last_cons_cons, flagged_cons, plugin_flag_cases.
      change (plugin_names_scan (item :: value :: rest') acc)
        with (if decide (item = "--plugin")
              then plugin_names_scan (value :: rest') (acc ++ [value])
              else if decide (item = "-p")
              then plugin_names_scan (value :: rest') (acc ++ [value])
              else plugin_names_scan (value :: rest') acc).
      destruct (decide (item = "--plugin"));
        [|destruct (decide (item = "-p"))]; rewrite IH;
        (destruct (last (value :: rest')) as [l|] eqn:Hl;
           [|by apply last_None in Hl]);
        destruct (plugin_flag l); try done;
        by rewrite <- app_assoc.
Qed.

Lemma import_plugins_all {Module} (import_ : string -> result pyexc Module)
    plugins loaded modules :
  Forall2 (fun plugin module =>
             import_ ("cibyl.plugins." ++ plugin) = Return module)
          plugins modules ->
  import_plugins import_ plugins loaded = Return (loaded ++ modules)%list.
Proof.
  intros Hall. revert loaded.
  induction Hall as [|plugin module plugins modules Himport _ IH];
    intros loaded; simpl.
  - by rewrite app_nil_r.
  - rewrite Himport, IH. by rewrite <- app_assoc.
Qed.

Lemma import_plugins_fails {Module} (import_ : string -> result pyexc Module)
    imported modules plugin rest loaded error :
  Forall2 (fun plugin module =>
             import_ ("cibyl.plugins." ++ plugin) = Return module)
          imported modules ->
  import_ ("cibyl.plugins." ++ plugin) = Raise error ->
  import_plugins import_ (imported ++ plugin :: rest) loaded =
  if isinstance error "ImportError" || isinstance error "ModuleNotFoundError"
  then Raise (failed_to_import plugin error)
  else Raise error.
Proof.
  intros Hall Hfail. revert loaded.
  induction Hall as [|p m ps ms Himport _ IH]; intros loaded; simpl.
  - by rewrite Hfail.
  - by rewrite Himport, IH.
Qed.

(** X21. [load_plugins] fails with [IndexError], before importing
    anything, exactly when the last argument is [--plugin] or [-p].
    Otherwise the plugins are the arguments that directly follow a
    [--plugin] or a [-p], in order: if all of them can be imported, their
    modules are returned in that order, and if one cannot, the first such
    plugin is named in the [ImportError] raised from the failure, while
    any other exception of the import propagates as it is. *)
Theorem load_plugins_cases {Module}
    (import_ : string -> result pyexc Module) (arguments : list string) :
  (forall flag,
     last (tail arguments) = Some flag -> plugin_flag flag = true ->
     load_plugins import_ arguments = Raise index_error) ∧
  ((forall flag, last (tail arguments) = Some flag ->
                 plugin_flag flag = false) ->
   (forall modules,
      Forall2 (fun plugin module =>
                 import_ ("cibyl.plugins." ++ plugin) = Return module)
              (flagged (tail arguments)) modules ->
      load_plugins import_ arguments = Return modules) ∧
   (forall imported modules plugin rest error,
      flagged (tail arguments) = (imported ++ plugin :: rest)%list ->
      Forall2 (fun plugin module =>
                 import_ ("cibyl.plugins." ++ plugin) = Return module)
              imported modules ->
      import_ ("cibyl.plugins." ++ plugin) = Raise error ->
      load_plugins import_ arguments =
      if isinstance error "ImportError" ||
         isinstance error "ModuleNotFoundError"
      then Raise (failed_to_import plugin error)
      else Raise error)).
Proof.
  unfold load_plugins.
  rewrite (plugin_names_loop_scan arguments 0 (tail arguments)) by done.
  rewrite plugin_names_scan_flagged. split.
  - by intros flag -> ->.
  - intros Hlast.
    assert (Hnames :
      match last (tail arguments) with
      | Some item =>
          if plugin_flag item then Raise index_error
          else Return ([] ++ flagged (tail arguments))%list
      | None => Return []
      end = (Return (flagged (tail arguments)) : result pyexc (list string))).
    { destruct (last (tail arguments)) as [item|] eqn:Hitem.
      - by rewrite (Hlast item eq_refl).
      - apply last_None in Hitem. by rewrite Hitem. }
    rewrite Hnames. simpl. split.
    + intros modules Hall. by apply (import_plugins_all import_ _ []).
    + intros imported modules plugin rest error -> Hall Hfail.
      by apply (import_plugins_fails import_ imported modules).
Qed.

Lemma load_plugins_cases_witness :
  load_plugins import_openstack
    ["cibyl"; "-p"; "openstack"; "--plugin"; "zuul"; "--debug"] =
  Raise (failed_to_import "zuul" module_not_found).
Proof.
  refine (proj2 (proj2 (load_plugins_cases import_openstack
            ["cibyl"; "-p"; "openstack"; "--plugin"; "zuul"; "--debug"]) _)
            ["openstack"] ["cibyl.plugins.openstack"] "zuul" []
            module_not_found _ _ _).
  - intros flag [= <-]. reflexivity.
  - reflexivity.
  - by repeat constructor.
  - reflexivity.
Defined.

(** ** Which source answers which query *)

Lemma enabled_instance_getattr methods source op :
  enabled_instance methods source = true -> op ∈ operations ->
  is_source_valid source op = Return (bool_decide (is_Some (methods !! op))) ∧
  getattr source op = AttrMethod <$> methods !! op.
Proof.
  unfold enabled_instance. rewrite !andb_true_iff, bool_decide_eq_true.
  intros [[<- Henabled] Hops] Hop.
  assert (Hfree : source_kwargs source !! op = None).
  { rewrite forallb_forall in Hops. eapply bool_decide_eq_true_1.
    by apply Hops, list_elem_of_In. }
  assert (Hname : op ≠ "name" ∧ op ≠ "driver" ∧ op ≠ "enabled").
  { unfold operations in Hop. rewrite !elem_of_cons, elem_of_nil in Hop.
    by destruct Hop as [->|[->|[->|[]]]]. }
  destruct Hname as (? & ? & ?).
  assert (Hget : getattr source op = AttrMethod <$> source_methods source !! op).
  { unfold getattr. by rewrite !decide_False, Hfree by done. }
  split; [|done].
  unfold is_source_valid, hasattr. rewrite Hget.
  unfold getattr at 1. rewrite !decide_False by done.
  destruct (source_kwargs source !! "enabled") as [enabled|]; [|done].
  simpl. rewrite Henabled. simpl.
  by destruct (source_methods source !! op).
Qed.

Lemma extra_scores_base (base : Z) args :
  "base" ∉ args -> extra_scores ({[ "base" := base ]} : speed_table) args = 0.
Proof.
  unfold extra_scores. induction args as [|arg rest IH]; simpl; [done|].
  intros [Harg Hrest]%not_elem_of_cons. rewrite IH by done.
  unfold speed_get. by rewrite lookup_singleton_ne.
Qed.

Lemma extra_scores_last_build args :
  NoDup args -> "base" ∉ args ->
  extra_scores ({[ "base" := 1; "last_build" := 1 ]} : speed_table) args =
  if bool_decide ("last_build" ∈ args) then 1 else 0.
Proof.
  unfold extra_scores. induction args as [|arg rest IH]; simpl; [done|].
  intros [Hfresh Hnodup]%NoDup_cons [Harg Hrest]%not_elem_of_cons.
  rewrite IH by done. unfold speed_get.
  destruct (decide (arg = "last_build")) as [->|Hne].
  - rewrite lookup_insert_ne, lookup_singleton_eq by done.
    rewrite (bool_decide_eq_false_2 ("last_build" ∈ rest)) by done.
    by rewrite (bool_decide_eq_true_2 ("last_build" ∈ "last_build" :: rest))
      by (by left).
  - rewrite lookup_insert_ne, lookup_singleton_ne by done.
    destruct (decide ("last_build" ∈ rest)) as [Hin|Hin].
    + rewrite (bool_decide_eq_true_2 ("last_build" ∈ rest)) by done.
      by rewrite (bool_decide_eq_true_2 ("last_build" ∈ arg :: rest))
        by (by right).
    + rewrite (bool_decide_eq_false_2 ("last_build" ∈ rest)) by done.
      rewrite (bool_decide_eq_false_2 ("last_build" ∈ arg :: rest)); [done|].
      by intros [?|?]%elem_of_cons.
Qed.

Lemma get_source_method_pair system_name first second func_name args v w :
  is_source_valid first func_name = Return true ->
  is_source_valid second func_name = Return true ->
  get_source_speed_score first func_name args = Return v ->
  get_source_speed_score second func_name args = Return w ->
  0 < v ->
  get_source_method system_name [first; second] func_name args =
  Return (BoundMethod (if w >? v then second else first) func_name).
Proof.
  intros Hfirst Hsecond Hv Hw Hpos.
  unfold get_source_method. simpl. unfold select_step.
  rewrite Hfirst, Hv. simpl.
  rewrite (proj2 (Z.gtb_lt v 0)) by done. simpl.
  rewrite Hsecond, Hw. simpl. by destruct (w >? v).
Qed.

(** X22. With a Jenkins and an Elasticsearch source attached, both
    enabled: the jobs are asked of Jenkins, whichever is attached first;
    the builds are asked of Elasticsearch, unless the last build is
    wanted and Jenkins is attached first; and the deployment is asked of
    the one attached first. *)
Theorem jenkins_or_elasticsearch
    (system_name : string) (jenkins elasticsearch : Source)
    (args : list string) :
  enabled_instance Jenkins_methods jenkins = true ->
  enabled_instance ElasticSearchOSP_methods elasticsearch = true ->
  NoDup args -> "base" ∉ args ->
  get_source_method system_name [jenkins; elasticsearch] "get_jobs" args =
    Return (BoundMethod jenkins "get_jobs") ∧
  get_source_method system_name [elasticsearch; jenkins] "get_jobs" args =
    Return (BoundMethod jenkins "get_jobs") ∧
  get_source_method system_name [jenkins; elasticsearch] "get_builds" args =
    Return (BoundMethod (if bool_decide ("last_build" ∈ args)
                         then jenkins else elasticsearch) "get_builds") ∧
  get_source_method system_name [elasticsearch; jenkins] "get_builds" args =
    Return (BoundMethod elasticsearch "get_builds") ∧
  get_source_method system_name [jenkins; elasticsearch] "get_deployment"
                    args =
    Return (BoundMethod jenkins "get_deployment") ∧
  get_source_method system_name [elasticsearch; jenkins] "get_deployment"
                    args =
    Return (BoundMethod elasticsearch "get_deployment").
Proof.
  intros Hj He Hnodup Hbase.
  assert (Hop : forall op, op ∈ operations ->
    is_source_valid jenkins op = Return true ∧
    is_source_valid elasticsearch op = Return true ∧
    getattr jenkins op = AttrMethod <$> Jenkins_methods !! op ∧
    getattr elasticsearch op = AttrMethod <$> ElasticSearchOSP_methods !! op).
  { intros op Hop.
    destruct (enabled_instance_getattr _ _ op Hj Hop) as [-> ->].
    destruct (enabled_instance_getattr _ _ op He Hop) as [-> ->].
    unfold operations in Hop. rewrite !elem_of_cons, elem_of_nil in Hop.
    by destruct Hop as [->|[->|[->|[]]]]. }
  assert (Hscore : forall source op table,
    getattr source op = Some (AttrMethod (Some table)) ->
    get_source_speed_score source op args =
    Return (speed_get table "base" + extra_scores table args)).
  { intros. by apply get_source_speed_score_eq. }
  destruct (Hop "get_jobs") as (Hj1 & He1 & Hj1' & He1');
    [unfold operations; rewrite !elem_of_cons; auto|].
  destruct (Hop "get_builds") as (Hj2 & He2 & Hj2' & He2');
    [unfold operations; rewrite !elem_of_cons; auto|].
  destruct (Hop "get_deployment") as (Hj3 & He3 & Hj3' & He3');
    [unfold operations; rewrite !elem_of_cons; auto|].
  apply Hscore in Hj1', He1', Hj2', He2', Hj3', He3'.
  rewrite !extra_scores_base in * by done.
  rewrite extra_scores_last_build in Hj2' by done.
  repeat split.
  - by rewrite (get_source_method_pair _ _ _ _ _ _ _ Hj1 He1 Hj1' He1').
  - by rewrite (get_source_method_pair _ _ _ _ _ _ _ He1 Hj1 He1' Hj1').
  - rewrite (get_source_method_pair _ _ _ _ _ _ _ Hj2 He2 Hj2' He2')
      by (by case_bool_decide).
    by case_bool_decide.
  - rewrite (get_source_method_pair _ _ _ _ _ _ _ He2 Hj2 He2' Hj2') by done.
    by case_bool_decide.
  - by rewrite (get_source_method_pair _ _ _ _ _ _ _ Hj3 He3 Hj3' He3').
  - by rewrite (get_source_method_pair _ _ _ _ _ _ _ He3 Hj3 He3' Hj3').
Qed.

Lemma jenkins_or_elasticsearch_witness :
  get_source_method "ci" [jenkins_source; elasticsearch_source]
                    "get_builds" ["jobs"; "last_build"] =
  Return (BoundMethod (if bool_decide ("last_build" ∈ ["jobs"; "last_build"])
                       then jenkins_source else elasticsearch_source)
                      "get_builds").
Proof.
  apply (jenkins_or_elasticsearch "ci" jenkins_source elasticsearch_source
           ["jobs"; "last_build"]).
  - vm_compute. reflexivity.
  - vm_compute. reflexivity.
  - apply (bool_decide_unpack (NoDup ["jobs"; "last_build"])).
    vm_compute. exact I.
  - apply (bool_decide_eq_false_1 ("base" ∈ ["jobs"; "last_build"])).
    vm_compute. reflexivity.
Defined.
